(** * MincePieVote: the comparison list of [src/MincePieVote.jsx]

    A shallow embedding of the React component [MincePieVoteApp]: the
    comparison records, the handlers [addComparison], [vote], [resetVotes]
    and [deleteComparison], the two network routines [loadData] and
    [saveData] with [sync], and the percentage arithmetic of the rendering
    loop.

    JavaScript numbers are IEEE 754 binary64 values.  The finite ones are
    modelled as rationals, and every arithmetic operation of the source is
    the exact operation followed by [round64], rounding to nearest with
    ties to even.  JavaScript strings that hold what the user types are
    sequences of UTF-16 code units. *)

From Stdlib Require Import ZArith QArith Qround Qabs List String Ascii Bool.
From Stdlib Require Import Lia Lqa Sorted.
Import ListNotations.

Open Scope string_scope.
Open Scope list_scope.
Open Scope Q_scope.

(** ** Binary64 rounding *)

Module Binary64.

(** Every finite binary64 value is an integer number of units [2^-1074]
    (the smallest subnormal); [scale] converts a value to units. *)
Definition scale : Q := inject_Z (2 ^ 1074).

(** Nearest integer, ties to the even one. *)
Definition round_half_even (r : Q) : Z :=
  let f := Qfloor r in
  match Qcompare (r - inject_Z f) (1 # 2) with
  | Lt => f
  | Gt => (f + 1)%Z
  | Eq => if Z.even f then f else (f + 1)%Z
  end.

(** Spacing, in units, of the binary64 values around [y] units: a power
    of two that leaves 53 significant bits, and never finer than one
    unit. *)
Definition grid_exp (y : Q) : Z :=
  Z.max (Z.log2 (Qfloor (Qabs y)) - 52) 0.

Definition grid (y : Q) : Z := (2 ^ grid_exp y)%Z.

(** The nearest multiple of the spacing; of two equally near ones, the
    one with the even significand. *)
Definition round_units (y : Q) : Z :=
  (round_half_even (y / inject_Z (grid y)) * grid y)%Z.

(** Rounding with an unbounded exponent; [overflows] tells when the
    binary64 result is an infinity instead. *)
Definition round64 (x : Q) : Q :=
  inject_Z (round_units (x * scale)) / scale.

Definition overflows (x : Q) : bool :=
  Qle_bool (inject_Z (2 ^ 1024)) (Qabs (round64 x)).

End Binary64.

Import Binary64.

(** ** JavaScript values *)

(** A finite JavaScript number. *)
Definition number := Q.

(** [x === y] and [x !== y] on numbers. *)
Definition strict_eq (x y : number) : bool := Qeq_bool x y.
Definition strict_neq (x y : number) : bool := negb (strict_eq x y).

(** The outcome of an addition that may leave the finite range. *)
Inductive sum_value :=
| Finite (q : number)
| PlusInfinity
| MinusInfinity.

(** [x + y] *)
Definition num_add (x y : number) : sum_value :=
  let r := round64 (x + y) in
  if Qle_bool (inject_Z (2 ^ 1024)) r then PlusInfinity
  else if Qle_bool r (- inject_Z (2 ^ 1024)) then MinusInfinity
  else Finite r.

(** [x + 1] on a counter and [Date.now() + Math.random()]: one more than
    a finite double, or a time value plus a fraction, is finite. *)
Definition num_plus (x y : number) : number := round64 (x + y).

(** [x - y], [x * y] where the source keeps them within the finite range. *)
Definition num_minus (x y : number) : number := round64 (x - y).
Definition num_times (x y : number) : number := round64 (x * y).

(** [x / t] for a finite [x]: a finite quotient is rounded, an infinite
    divisor gives zero.  The source divides only by a truthy [t]. *)
Definition num_div (x : number) (t : sum_value) : number :=
  match t with
  | Finite q => round64 (x / q)
  | PlusInfinity | MinusInfinity => 0
  end.

(** The condition of [t ? _ : _]: zero is falsy, the infinities are not. *)
Definition truthy (t : sum_value) : bool :=
  match t with
  | Finite q => negb (Qeq_bool q 0)
  | PlusInfinity | MinusInfinity => true
  end.

(** [Math.round]: the nearest integer, a tie going up. *)
Definition Math_round (x : number) : number := inject_Z (Qfloor (x + (1 # 2))).

(** A number that is a non-negative integer, as a vote counter must be. *)
Definition nonneg_integer (v : number) : bool :=
  Qle_bool 0 v && Qeq_bool v (inject_Z (Qfloor v)).

(** A rational that is a finite binary64 value. *)
Definition is_double (x : number) : bool :=
  Qeq_bool (round64 x) x && negb (overflows x).

(** A string that holds text: its UTF-16 code units, in order. *)
Definition text := list N.

(** The text of a literal whose characters are below 256. *)
Definition text_of (s : string) : text :=
  map N_of_ascii (list_ascii_of_string s).

(** The code units that [trim] removes, the WhiteSpace and LineTerminator
    of ECMAScript: U+0009 to U+000D, U+0020, U+00A0, U+1680, U+2000 to
    U+200A, U+2028, U+2029, U+202F, U+205F, U+3000 and U+FEFF. *)
Definition is_white_space (c : N) : bool :=
  (((9 <=? c) && (c <=? 13)) || (c =? 32) || (c =? 160) || (c =? 5760)
   || ((8192 <=? c) && (c <=? 8202)) || (c =? 8232) || (c =? 8233)
   || (c =? 8239) || (c =? 8287) || (c =? 12288) || (c =? 65279))%N.

Fixpoint trim_start (s : text) : text :=
  match s with
  | [] => []
  | c :: s' => if is_white_space c then trim_start s' else s
  end.

Fixpoint trim_end (s : text) : text :=
  match s with
  | [] => []
  | c :: s' =>
      match trim_end s' with
      | [] => if is_white_space c then [] else [c]
      | t => c :: t
      end
  end.

Definition trim (s : text) : text := trim_end (trim_start s).

(** ** The data model *)

Record comparison := mkComparison {
  id : number;
  a : text;
  b : text;
  aImg : text;
  bImg : text;
  votesA : number;
  votesB : number;
  createdAt : string
}.

(** [{ ...c, votesA: va, votesB: vb }] *)
Definition with_votes (c : comparison) (va vb : number) : comparison :=
  {| id := id c; a := a c; b := b c; aImg := aImg c; bImg := bImg c;
     votesA := va; votesB := vb; createdAt := createdAt c |}.

Module Form.
Record t := mk { a : text; b : text; aImg : text; bImg : text }.
Definition empty : t := {| a := []; b := []; aImg := []; bImg := [] |}.
End Form.

(** The six [useState] cells of the component. *)
Record state := mkState {
  comparisons : list comparison;
  loading : bool;
  saving : bool;
  showAdd : bool;
  form : Form.t;
  filter : text
}.

Definition initial_state : state :=
  {| comparisons := []; loading := true; saving := false; showAdd := false;
     form := Form.empty; filter := [] |}.

(** ** The remote store *)

Definition WEB_APP_URL : string :=
  "https://script.google.com/macros/s/AKfycbwn03WiDtUAZRcjSksIqJtfz_R_V6wsPQTFu2MuAgrkoVCyg4ZmhS644IdGXc2aId0IIw/exec".

Record update_body := mkBody { action : string; data : list comparison }.

Inductive request :=
| GET (url : string)
| POST (url : string) (content_type : string) (body : update_body).

(** What [res.json()] can deliver.  The code looks at nothing but
    [Array.isArray]; the elements of an array are the rows of the sheet. *)
Inductive json :=
| JNull
| JBoolean (v : bool)
| JNumber (v : number)
| JString (v : text)
| JObject
| JArray (rows : list comparison).

(** How the read settles: [fetch] rejects, [res.json()] rejects, or a
    value arrives. *)
Inductive list_outcome :=
| FetchRejected
| JsonRejected
| Parsed (v : json).

Definition Array_isArray (v : json) : bool :=
  match v with
  | JArray _ => true
  | _ => false
  end.

Definition elements (v : json) : list comparison :=
  match v with
  | JArray rows => rows
  | _ => []
  end.

(** [Array.isArray(data) ? data : []] *)
Definition rows_or_empty (data : json) : list comparison :=
  if Array_isArray data then elements data else [].

(** ** Effects *)

Inductive effect :=
| SetComparisons (next : list comparison)
| SetLoading (v : bool)
| SetSaving (v : bool)
| SetShowAdd (v : bool)
| SetForm (v : Form.t)
| SetFilter (v : text)
| Fetch (r : request)
| ConsoleError (msg : string)
| PreventDefault
| Confirm (msg : string).

Definition apply_effect (e : effect) (s : state) : state :=
  match e with
  | SetComparisons v =>
      mkState v (loading s) (saving s) (showAdd s) (form s) (filter s)
  | SetLoading v =>
      mkState (comparisons s) v (saving s) (showAdd s) (form s) (filter s)
  | SetSaving v =>
      mkState (comparisons s) (loading s) v (showAdd s) (form s) (filter s)
  | SetShowAdd v =>
      mkState (comparisons s) (loading s) (saving s) v (form s) (filter s)
  | SetForm v =>
      mkState (comparisons s) (loading s) (saving s) (showAdd s) v (filter s)
  | SetFilter v =>
      mkState (comparisons s) (loading s) (saving s) (showAdd s) (form s) v
  | Fetch _ | ConsoleError _ | PreventDefault | Confirm _ => s
  end.

(** The component's state together with everything it has done so far,
    oldest effect first.  A state setter takes effect when it is called,
    and a handler sees the state of the latest render: a render takes
    place between two user actions. *)
Record world := mkWorld { ui : state; log : list effect }.

Definition initial_world : world := {| ui := initial_state; log := [] |}.

Definition M (A : Type) : Type := world -> A * world.

Definition ret {A : Type} (x : A) : M A := fun w => (x, w).

Definition bind {A B : Type} (m : M A) (k : A -> M B) : M B :=
  fun w => let (x, w') := m w in k x w'.

Notation "x <- m ;; k" := (bind m (fun x => k))
  (at level 61, m at next level, right associativity).
Notation "m ;; k" := (bind m (fun _ => k))
  (at level 61, right associativity).

Definition emit (e : effect) : M unit :=
  fun w => (tt, {| ui := apply_effect e (ui w); log := log w ++ [e] |}).

Definition read : M state := fun w => (ui w, w).

Definition exec {A : Type} (m : M A) (w : world) : world := snd (m w).

(** The collection held once [m] has run. *)
Definition collection_after {A : Type} (m : M A) (w : world)
  : list comparison :=
  comparisons (ui (exec m w)).

(** ** The network routines *)

(** [loadData] up to its first [await] ... *)
Definition loadData_start : M unit :=
  emit (SetLoading true) ;;
  emit (Fetch (GET (WEB_APP_URL ++ "?action=list"))).

(** ... and from there on, once the read has settled. *)
Definition loadData_settle (r : list_outcome) : M unit :=
  match r with
  | Parsed v => emit (SetComparisons (rows_or_empty v))
  | FetchRejected | JsonRejected =>
      emit (ConsoleError "Failed to load sheet data")
  end ;;
  emit (SetLoading false).

Definition loadData (r : list_outcome) : M unit :=
  loadData_start ;; loadData_settle r.

(** [saveData] up to its [await]; [resolved] tells how the write settles. *)
Definition saveData_start (next : list comparison) : M unit :=
  emit (SetSaving true) ;;
  emit (Fetch (POST WEB_APP_URL "application/json"
                 {| action := "update"; data := next |})).

Definition saveData_settle (resolved : bool) : M unit :=
  (if resolved then ret tt
   else emit (ConsoleError "Failed to save sheet data")) ;;
  emit (SetSaving false).

(** [sync] does not wait for the promise of [saveData]. *)
Definition sync (next : list comparison) : M unit :=
  emit (SetComparisons next) ;;
  saveData_start next.

(** What [sync next] does, in order. *)
Definition sync_effects (next : list comparison) : list effect :=
  [SetComparisons next; SetSaving true;
   Fetch (POST WEB_APP_URL "application/json"
            {| action := "update"; data := next |})].

(** ** The handlers *)

(** What the surroundings supply to [addComparison]: [Date.now()],
    [Math.random()] and [new Date().toISOString()]. *)
Record ambient := mkAmbient {
  Date_now : Z;
  Math_random : number;
  toISOString : string
}.

Definition new_id (env : ambient) : number :=
  num_plus (inject_Z (Date_now env)) (Math_random env).

Definition new_row (f : Form.t) (env : ambient) : comparison :=
  {| id := new_id env;
     a := trim (Form.a f);
     b := trim (Form.b f);
     aImg := trim (Form.aImg f);
     bImg := trim (Form.bImg f);
     votesA := 0;
     votesB := 0;
     createdAt := toISOString env |}.

(** [e] tells whether an event object was passed. *)
Definition addComparison (e : bool) (env : ambient) : M unit :=
  (if e then emit PreventDefault else ret tt) ;;
  s <- read ;;
  let row := new_row (form s) env in
  let next := row :: comparisons s in
  sync next ;;
  emit (SetForm Form.empty) ;;
  emit (SetShowAdd false).

Definition vote_row (i : number) (side : string) (c : comparison)
  : comparison :=
  if strict_eq (id c) i
  then with_votes c
         (if String.eqb side "A" then num_plus (votesA c) 1 else votesA c)
         (if String.eqb side "B" then num_plus (votesB c) 1 else votesB c)
  else c.

Definition vote (i : number) (side : string) : M unit :=
  s <- read ;;
  let next := map (vote_row i side) (comparisons s) in
  sync next.

(** [confirm] asks the user; [answer] is what the user says. *)
Definition confirm (answer : string -> bool) (msg : string) : M bool :=
  emit (Confirm msg) ;; ret (answer msg).

Definition reset_row (i : number) (c : comparison) : comparison :=
  if strict_eq (id c) i then with_votes c 0 0 else c.

Definition resetVotes (answer : string -> bool) (i : number) : M unit :=
  ok <- confirm answer "Reset votes?" ;;
  if negb ok then ret tt
  else
    s <- read ;;
    let next := map (reset_row i) (comparisons s) in
    sync next.

Definition deleteComparison (answer : string -> bool) (i : number) : M unit :=
  ok <- confirm answer "Delete this comparison?" ;;
  if negb ok then ret tt
  else
    s <- read ;;
    let next := List.filter (fun c => strict_neq (id c) i) (comparisons s) in
    sync next.

(** The two name inputs of the form are [required]: the browser does not
    fire [onSubmit] while one of them is the empty string. *)
Definition is_empty (s : text) : bool :=
  match s with
  | [] => true
  | _ :: _ => false
  end.

Definition required_filled (f : Form.t) : bool :=
  negb (is_empty (Form.a f)) && negb (is_empty (Form.b f)).

Definition submit_form (env : ambient) : M unit :=
  s <- read ;;
  if required_filled (form s) then addComparison true env else ret tt.

(** ** Rendering *)

Definition total (c : comparison) : sum_value :=
  num_add (votesA c) (votesB c).

Definition pctA (c : comparison) : number :=
  let total := total c in
  if truthy total
  then Math_round (num_times (num_div (votesA c) total) 100)
  else 50.

Definition pctB (c : comparison) : number := num_minus 100 (pctA c).

(** ** Runs of user actions *)

Inductive user_action :=
| Add (f : Form.t) (env : ambient)
| Vote (i : number) (side : string)
| Reset (i : number) (answer : bool)
| Delete (i : number) (answer : bool).

(** [Add f env]: the user fills the form with [f] and submits it. *)
Definition perform (x : user_action) : M unit :=
  match x with
  | Add f env => emit (SetForm f) ;; addComparison true env
  | Vote i side => vote i side
  | Reset i answer => resetVotes (fun _ => answer) i
  | Delete i answer => deleteComparison (fun _ => answer) i
  end.

Fixpoint run (xs : list user_action) : M unit :=
  match xs with
  | [] => ret tt
  | x :: xs' => perform x ;; run xs'
  end.

(** No two records of the collection have the same [id]. *)
Fixpoint unique_ids (l : list comparison) : bool :=
  match l with
  | [] => true
  | c :: l' => forallb (fun d => strict_neq (id d) (id c)) l' && unique_ids l'
  end.

Definition counters_ok (c : comparison) : bool :=
  nonneg_integer (votesA c) && nonneg_integer (votesB c).

Definition well_formed (l : list comparison) : Prop :=
  unique_ids l = true /\ forallb counters_ok l = true.

(** Every [Add] of the run draws an [id] that no record held at that
    moment has. *)
Fixpoint fresh_adds (xs : list user_action) (w : world) : bool :=
  match xs with
  | [] => true
  | x :: xs' =>
      match x with
      | Add _ env =>
          forallb (fun c => strict_neq (id c) (new_id env))
                  (comparisons (ui w))
      | _ => true
      end
      && fresh_adds xs' (exec (perform x) w)
  end.

(** ** The filter box and the dialog *)

(** [toLowerCase] is the platform's, with the case tables of Unicode.
    It is taken as it comes; the one fact used of it is that the empty
    string stays empty. *)
Record lowering := mkLowering {
  toLowerCase :> text -> text;
  toLowerCase_empty : toLowerCase [] = []
}.

(** [s.startsWith(p)] *)
Fixpoint starts_with (s p : text) {struct p} : bool :=
  match p, s with
  | [], _ => true
  | _ :: _, [] => false
  | d :: p', c :: s' => N.eqb c d && starts_with s' p'
  end.

(** [s.includes(sub)] *)
Fixpoint includes (s sub : text) : bool :=
  starts_with s sub
  || match s with
     | [] => false
     | _ :: s' => includes s' sub
     end.

(** [p] occurs somewhere in [s]. *)
Definition occurs (p s : text) : Prop :=
  exists pre post : text, s = pre ++ p ++ post.

(** The predicate of [comparisons.filter(...)] in the component body. *)
Definition shown (L : lowering) (flt : text) (c : comparison) : bool :=
  includes (toLowerCase L (a c)) (toLowerCase L flt)
  || includes (toLowerCase L (b c)) (toLowerCase L flt).

Definition filtered (L : lowering) (s : state) : list comparison :=
  List.filter (shown L (filter s)) (comparisons s).

(** The inline handlers of the markup: the Add Comparison and Cancel
    buttons, the filter box, and the four inputs of the form. *)
Definition open_dialog : M unit := emit (SetShowAdd true).

Definition cancel_dialog : M unit := emit (SetShowAdd false).

Definition type_filter (v : text) : M unit := emit (SetFilter v).

Definition type_a (v : text) : M unit :=
  s <- read ;;
  emit (SetForm {| Form.a := v; Form.b := Form.b (form s);
                   Form.aImg := Form.aImg (form s);
                   Form.bImg := Form.bImg (form s) |}).

Definition type_aImg (v : text) : M unit :=
  s <- read ;;
  emit (SetForm {| Form.a := Form.a (form s); Form.b := Form.b (form s);
                   Form.aImg := v;
                   Form.bImg := Form.bImg (form s) |}).

Definition type_b (v : text) : M unit :=
  s <- read ;;
  emit (SetForm {| Form.a := Form.a (form s); Form.b := v;
                   Form.aImg := Form.aImg (form s);
                   Form.bImg := Form.bImg (form s) |}).

Definition type_bImg (v : text) : M unit :=
  s <- read ;;
  emit (SetForm {| Form.a := Form.a (form s); Form.b := Form.b (form s);
                   Form.aImg := Form.aImg (form s);
                   Form.bImg := v |}).

(** [useEffect(() => { loadData(); }, [])]: the read is issued on mount. *)
Definition mount : M unit := loadData_start.

(** Two records that differ at most in their counters. *)
Definition same_but_counters (c c' : comparison) : Prop :=
  id c' = id c /\ a c' = a c /\ b c' = b c /\ aImg c' = aImg c
  /\ bImg c' = bImg c /\ createdAt c' = createdAt c.

(** The collection carried by the latest write of a log, if any. *)
Fixpoint last_write (l : list effect) : option (list comparison) :=
  match l with
  | [] => None
  | e :: l' =>
      match last_write l' with
      | Some d => Some d
      | None =>
          match e with
          | Fetch (POST _ _ body) => Some (data body)
          | _ => None
          end
      end
  end.

(** A reset or a delete that the user does not confirm. *)
Definition declined (x : user_action) : bool :=
  match x with
  | Reset _ false | Delete _ false => true
  | _ => false
  end.

(** Strings of white space, and strings with none at either end. *)
Fixpoint blank (s : text) : bool :=
  match s with
  | [] => true
  | c :: s' => is_white_space c && blank s'
  end.

Fixpoint last_char (s : text) : option N :=
  match s with
  | [] => None
  | c :: s' =>
      match last_char s' with
      | Some d => Some d
      | None => Some c
      end
  end.

Definition starts_clean (s : text) : bool :=
  match s with
  | [] => true
  | c :: _ => negb (is_white_space c)
  end.

Definition ends_clean (s : text) : bool :=
  match last_char s with
  | Some c => negb (is_white_space c)
  | None => true
  end.

(** [stored] is [typed] without the white space around it. *)
Definition stripped (typed stored : text) : Prop :=
  starts_clean stored = true /\ ends_clean stored = true
  /\ exists pre post : text,
      blank pre = true /\ blank post = true
      /\ typed = pre ++ stored ++ post.

(** The ids go down strictly from the head of the list on. *)
Definition newest_first (l : list comparison) : Prop :=
  StronglySorted (fun c d => id d < id c) l.

(** Every [Add] of the run reads a clock that is past every id held at
    that moment, and a random number that is not negative. *)
Fixpoint clock_ahead (xs : list user_action) (w : world) : bool :=
  match xs with
  | [] => true
  | x :: xs' =>
      match x with
      | Add _ env =>
          (0 <=? Date_now env)%Z && (Date_now env <=? 2 ^ 53)%Z
          && Qle_bool 0 (Math_random env)
          && forallb (fun c => negb (Qle_bool (inject_Z (Date_now env)) (id c)))
                     (comparisons (ui w))
      | _ => true
      end
      && clock_ahead xs' (exec (perform x) w)
  end.

(** ** Sample inputs *)

Definition sample_row (i va vb : number) : comparison :=
  {| id := i; a := text_of "Shop"; b := text_of "Home"; aImg := []; bImg := [];
     votesA := va; votesB := vb; createdAt := "2024-12-01T10:00:00.000Z" |}.

(** The component showing the collection [l], with nothing in flight. *)
Definition world_of (l : list comparison) : world :=
  {| ui := mkState l false false false Form.empty []; log := [] |}.

Definition always (v : bool) : string -> bool := fun _ => v.

(** A counter at [2^53], where the doubles are two apart. *)
Definition saturated_row : comparison :=
  sample_row 1 (inject_Z (2 ^ 53)) 0.

Definition two_with_one_id : list comparison :=
  [sample_row 1 3 4; sample_row 1 0 2].

(** Two submissions within one millisecond whose random draws differ by
    [2^-14]; a third one five seconds later. *)
Definition first_draw : ambient :=
  {| Date_now := 1733047200000; Math_random := 1 # 2;
     toISOString := "2024-12-01T10:00:00.000Z" |}.

Definition second_draw : ambient :=
  {| Date_now := 1733047200000; Math_random := (1 # 2) + (1 # 16384);
     toISOString := "2024-12-01T10:00:00.000Z" |}.

Definition later_draw : ambient :=
  {| Date_now := 1733047205000; Math_random := 1 # 4;
     toISOString := "2024-12-01T10:00:05.000Z" |}.

Definition pie_form : Form.t :=
  {| Form.a := text_of "Shop"; Form.b := text_of " Home ";
     Form.aImg := []; Form.bImg := [] |}.

(** A form whose left name is one space. *)
Definition blank_form : Form.t :=
  {| Form.a := text_of " "; Form.b := text_of "Home";
     Form.aImg := []; Form.bImg := [] |}.

(** A lowering for the examples: the letters A to Z, one by one. *)
Definition lower_letters : lowering :=
  {| toLowerCase :=
       map (fun c => if ((65 <=? c) && (c <=? 90))%N then (c + 32)%N else c);
     toLowerCase_empty := eq_refl |}.

(** A left name of one ideographic space, U+3000. *)
Definition wide_blank_form : Form.t :=
  {| Form.a := [12288%N]; Form.b := text_of "Home";
     Form.aImg := []; Form.bImg := [] |}.

(** ** Facts about the rounding *)

Section Rounding.

Lemma scale_pos : 0 < scale.
Proof. reflexivity. Qed.

Lemma round_half_even_bounds (r : Q) :
  (Qfloor r <= round_half_even r <= Qfloor r + 1)%Z.
Proof.
  unfold round_half_even.
  destruct (Qcompare _ _); try destruct (Z.even _); lia.
Qed.

Lemma round_half_even_Z (n : Z) : round_half_even (inject_Z n) = n.
Proof.
  unfold round_half_even. rewrite Qfloor_Z.
  assert (E : inject_Z n - inject_Z n == 0) by ring.
  rewrite E. reflexivity.
Qed.

Lemma round_half_even_mono (r1 r2 : Q) :
  r1 <= r2 -> (round_half_even r1 <= round_half_even r2)%Z.
Proof.
  intros Hle.
  pose proof (Qfloor_resp_le _ _ Hle) as Hf.
  pose proof (round_half_even_bounds r1) as B1.
  pose proof (round_half_even_bounds r2) as B2.
  destruct (Z.eq_dec (Qfloor r1) (Qfloor r2)) as [E | NE]; [| lia].
  unfold round_half_even in *. rewrite <- E in *.
  set (f := Qfloor r1) in *.
  destruct (Qcompare (r1 - inject_Z f) (1 # 2)) eqn:C1;
    destruct (Qcompare (r2 - inject_Z f) (1 # 2)) eqn:C2;
    try (destruct (Z.even f)); try lia;
    try rewrite <- Qeq_alt in C1; try rewrite <- Qeq_alt in C2;
    try rewrite <- Qlt_alt in C1; try rewrite <- Qlt_alt in C2;
    try rewrite <- Qgt_alt in C1; try rewrite <- Qgt_alt in C2;
    exfalso; lra.
Qed.

Lemma grid_exp_nonneg (y : Q) : (0 <= grid_exp y)%Z.
Proof. unfold grid_exp. lia. Qed.

Lemma grid_pos (y : Q) : (0 < grid y)%Z.
Proof. unfold grid. apply Z.pow_pos_nonneg; [lia | apply grid_exp_nonneg]. Qed.

Lemma Qfloor_abs_nonneg (y : Q) : 0 <= y -> Qfloor (Qabs y) = Qfloor y.
Proof. intros H. apply Qfloor_comp. now apply Qabs_pos. Qed.

Lemma Qfloor_nonneg (y : Q) : 0 <= y -> (0 <= Qfloor y)%Z.
Proof.
  intros H. change 0%Z with (Qfloor 0). now apply Qfloor_resp_le.
Qed.

Lemma grid_exp_mono (y1 y2 : Q) :
  0 <= y1 -> y1 <= y2 -> (grid_exp y1 <= grid_exp y2)%Z.
Proof.
  intros H0 Hle. unfold grid_exp.
  rewrite !Qfloor_abs_nonneg by lra.
  pose proof (Z.log2_le_mono _ _ (Qfloor_resp_le _ _ Hle)). lia.
Qed.

Lemma inject_Z_le (n m : Z) : (n <= m)%Z -> inject_Z n <= inject_Z m.
Proof. intros H. now rewrite <- Zle_Qle. Qed.

Lemma inject_Z_lt (n m : Z) : (n < m)%Z -> inject_Z n < inject_Z m.
Proof. intros H. now rewrite <- Zlt_Qlt. Qed.

(** [y] lies below the top of its binade ... *)
Lemma below_top (y : Q) :
  0 <= y -> y < inject_Z (2 ^ (grid_exp y + 53)).
Proof.
  intros H0.
  pose proof (Qlt_floor y) as Hlt.
  pose proof (Qfloor_nonneg y H0) as HN.
  apply Qlt_le_trans with (1 := Hlt). apply inject_Z_le.
  unfold grid_exp. rewrite Qfloor_abs_nonneg by assumption.
  set (N := Qfloor y) in *.
  destruct (Z.eq_dec N 0) as [E | NE].
  - rewrite E. simpl Z.log2.
    assert (1 <= 2 ^ (Z.max (0 - 52) 0 + 53))%Z
      by (apply (Z.pow_le_mono_r 2 0); lia).
    lia.
  - assert (Hpos : (0 < N)%Z) by lia.
    pose proof (Z.log2_spec N Hpos) as [_ Hup].
    pose proof (Z.log2_nonneg N).
    assert (2 ^ Z.succ (Z.log2 N) <= 2 ^ (Z.max (Z.log2 N - 52) 0 + 53))%Z
      by (apply Z.pow_le_mono_r; lia).
    lia.
Qed.

(** ... and, when the spacing is coarser than one unit, above its bottom. *)
Lemma above_bottom (y : Q) :
  0 <= y -> (0 < grid_exp y)%Z -> inject_Z (2 ^ (grid_exp y + 52)) <= y.
Proof.
  intros H0. unfold grid_exp. rewrite Qfloor_abs_nonneg by assumption.
  intros Hs.
  apply Qle_trans with (2 := Qfloor_le y). apply inject_Z_le.
  set (N := Qfloor y) in *.
  assert (Hpos : (0 < N)%Z).
  { destruct (Z.ltb_spec 0 N) as [L | L]; [assumption |].
    rewrite (Z.log2_nonpos N L) in Hs. lia. }
  pose proof (Z.log2_spec N Hpos) as [Hlow _].
  replace (Z.max (Z.log2 N - 52) 0 + 52)%Z with (Z.log2 N) by lia.
  assumption.
Qed.

Lemma div_grid_le (y : Q) (k e : Z) :
  (0 <= e)%Z -> y <= inject_Z (k * 2 ^ e) -> y / inject_Z (2 ^ e) <= inject_Z k.
Proof.
  intros He H.
  assert (0 < inject_Z (2 ^ e))
    by (apply (inject_Z_lt 0); apply Z.pow_pos_nonneg; lia).
  apply Qle_shift_div_r; [assumption |].
  now rewrite <- inject_Z_mult.
Qed.

Lemma div_grid_ge (y : Q) (k e : Z) :
  (0 <= e)%Z -> inject_Z (k * 2 ^ e) <= y -> inject_Z k <= y / inject_Z (2 ^ e).
Proof.
  intros He H.
  assert (0 < inject_Z (2 ^ e))
    by (apply (inject_Z_lt 0); apply Z.pow_pos_nonneg; lia).
  apply Qle_shift_div_l; [assumption |].
  now rewrite <- inject_Z_mult.
Qed.

Lemma round_units_le_top (y : Q) :
  0 <= y -> (round_units y <= 2 ^ (grid_exp y + 53))%Z.
Proof.
  intros H0. unfold round_units, grid.
  pose proof (grid_exp_nonneg y) as He.
  replace (grid_exp y + 53)%Z with (53 + grid_exp y)%Z by lia.
  rewrite Z.pow_add_r by lia.
  apply Z.mul_le_mono_nonneg_r; [apply Z.pow_nonneg; lia |].
  rewrite <- (round_half_even_Z (2 ^ 53)).
  apply round_half_even_mono, div_grid_le; [assumption |].
  rewrite <- Z.pow_add_r by lia.
  apply Qlt_le_weak.
  replace (53 + grid_exp y)%Z with (grid_exp y + 53)%Z by lia.
  now apply below_top.
Qed.

Lemma round_units_ge_bottom (y : Q) :
  0 <= y -> (0 < grid_exp y)%Z -> (2 ^ (grid_exp y + 52) <= round_units y)%Z.
Proof.
  intros H0 Hs. unfold round_units, grid.
  replace (grid_exp y + 52)%Z with (52 + grid_exp y)%Z by lia.
  rewrite Z.pow_add_r by lia.
  apply Z.mul_le_mono_nonneg_r; [apply Z.pow_nonneg; lia |].
  rewrite <- (round_half_even_Z (2 ^ 52)).
  apply round_half_even_mono, div_grid_ge; [lia |].
  rewrite <- Z.pow_add_r by lia.
  replace (52 + grid_exp y)%Z with (grid_exp y + 52)%Z by lia.
  now apply above_bottom.
Qed.

(** Rounding is monotone on the non-negative values. *)
Lemma round_units_mono (y1 y2 : Q) :
  0 <= y1 -> y1 <= y2 -> (round_units y1 <= round_units y2)%Z.
Proof.
  intros H0 Hle.
  pose proof (grid_exp_mono y1 y2 H0 Hle) as Hs.
  destruct (Z.eq_dec (grid_exp y1) (grid_exp y2)) as [E | NE].
  - unfold round_units, grid. rewrite E.
    apply Z.mul_le_mono_nonneg_r; [apply Z.pow_nonneg; lia |].
    apply round_half_even_mono.
    assert (0 < inject_Z (2 ^ grid_exp y2))
      by (apply (inject_Z_lt 0); apply Z.pow_pos_nonneg;
          [lia | apply grid_exp_nonneg]).
    apply Qmult_le_compat_r; [assumption |].
    apply Qlt_le_weak, Qinv_lt_0_compat. assumption.
  - pose proof (grid_exp_nonneg y1).
    apply Z.le_trans with (1 := round_units_le_top y1 H0).
    apply Z.le_trans with (2 := round_units_ge_bottom y2 ltac:(lra) ltac:(lia)).
    apply Z.pow_le_mono_r; lia.
Qed.

Lemma round64_mono (x1 x2 : Q) :
  0 <= x1 -> x1 <= x2 -> round64 x1 <= round64 x2.
Proof.
  intros H0 Hle. unfold round64.
  pose proof scale_pos as Hs.
  apply Qmult_le_compat_r; [| apply Qlt_le_weak, Qinv_lt_0_compat; assumption].
  apply inject_Z_le, round_units_mono.
  - apply Qmult_le_0_compat; lra.
  - apply Qmult_le_compat_r; lra.
Qed.

(** A multiple of its own spacing is left alone. *)
Lemma round_units_exact (y : Q) (k : Z) :
  y == inject_Z (k * grid y) -> round_units y = (k * grid y)%Z.
Proof.
  intros E. unfold round_units. f_equal.
  transitivity (round_half_even (inject_Z k)); [| apply round_half_even_Z].
  assert (Hq : y / inject_Z (grid y) == inject_Z k).
  { pose proof (inject_Z_lt _ _ (grid_pos y)) as Hg.
    set (g := grid y) in *.
    change (inject_Z 0) with 0 in Hg.
    rewrite E, inject_Z_mult. field. lra. }
  unfold round_half_even.
  rewrite (Qfloor_comp _ _ Hq).
  assert (Hc : y / inject_Z (grid y) - inject_Z (Qfloor (inject_Z k))
               == inject_Z k - inject_Z (Qfloor (inject_Z k)))
    by (rewrite Hq; reflexivity).
  now rewrite (Qcompare_comp _ _ Hc _ _ (Qeq_refl (1 # 2))).
Qed.

Lemma grid_exp_inject (n : Z) :
  (0 < n)%Z -> grid_exp (inject_Z n) = Z.max (Z.log2 n - 52) 0.
Proof.
  intros H. unfold grid_exp.
  rewrite Qfloor_abs_nonneg by (apply (inject_Z_le 0); lia).
  now rewrite Qfloor_Z.
Qed.

(** Up to 53 significant bits ahead of [e] zero bits: a binary64 value. *)
Lemma round_units_dyadic (m e : Z) :
  (0 <= m <= 2 ^ 53)%Z -> (0 <= e)%Z ->
  round_units (inject_Z (m * 2 ^ e)) = (m * 2 ^ e)%Z.
Proof.
  intros Hm He.
  destruct (Z.eq_dec m 0) as [-> | Hnz]; [reflexivity |].
  assert (Hpow : (0 < 2 ^ e)%Z) by (apply Z.pow_pos_nonneg; lia).
  assert (Hpos : (0 < m * 2 ^ e)%Z) by nia.
  pose proof (grid_exp_inject _ Hpos) as Hge.
  rewrite Z.log2_mul_pow2 in Hge by lia.
  pose proof (Z.log2_nonneg m) as Hl0.
  destruct (Z.eq_dec m (2 ^ 53)) as [-> | Hlt].
  - rewrite Z.log2_pow2 in Hge by lia.
    replace (Z.max (e + 53 - 52) 0) with (e + 1)%Z in Hge by lia.
    assert (Hy : (2 ^ 53 * 2 ^ e = 2 ^ 52 * grid (inject_Z (2 ^ 53 * 2 ^ e)))%Z).
    { unfold grid. rewrite Hge, <- !Z.pow_add_r by lia. f_equal. lia. }
    rewrite Hy at 2. apply round_units_exact.
    rewrite <- Hy. reflexivity.
  - assert (Hl : (Z.log2 m < 53)%Z) by (apply Z.log2_lt_pow2; lia).
    set (g := Z.max (e + Z.log2 m - 52) 0) in *.
    assert (Hy : (m * 2 ^ e
                  = m * 2 ^ (e - g) * grid (inject_Z (m * 2 ^ e)))%Z).
    { unfold grid. rewrite Hge, <- Z.mul_assoc, <- Z.pow_add_r by lia.
      do 2 f_equal. lia. }
    rewrite Hy at 2. apply round_units_exact.
    rewrite <- Hy. reflexivity.
Qed.

Lemma scale_units (n : Z) : inject_Z n * scale == inject_Z (n * 2 ^ 1074).
Proof. unfold scale. now rewrite inject_Z_mult. Qed.

Lemma round_units_comp (y1 y2 : Q) :
  y1 == y2 -> round_units y1 = round_units y2.
Proof.
  intros E. unfold round_units, grid, grid_exp, round_half_even.
  assert (EA : Qabs y1 == Qabs y2) by now rewrite E.
  rewrite (Qfloor_comp _ _ EA).
  set (g := inject_Z _).
  assert (Ed : y1 / g == y2 / g) by now rewrite E.
  rewrite (Qfloor_comp _ _ Ed).
  assert (Ec : y1 / g - inject_Z (Qfloor (y2 / g))
               == y2 / g - inject_Z (Qfloor (y2 / g))) by now rewrite Ed.
  now rewrite (Qcompare_comp _ _ Ec _ _ (Qeq_refl (1 # 2))).
Qed.

#[global] Instance round64_comp : Proper (Qeq ==> Qeq) round64.
Proof.
  intros x1 x2 E. unfold round64.
  assert (Es : x1 * scale == x2 * scale) by now rewrite E.
  now rewrite (round_units_comp _ _ Es).
Qed.

(** Integers up to [2^53] are binary64 values. *)
Lemma round64_int (n : Z) :
  (0 <= n <= 2 ^ 53)%Z -> round64 (inject_Z n) == inject_Z n.
Proof.
  intros H. unfold round64.
  rewrite (round_units_comp _ _ (scale_units n)).
  rewrite round_units_dyadic by lia.
  rewrite inject_Z_mult. unfold scale. field. discriminate.
Qed.

Lemma round64_0 : round64 0 == 0.
Proof. apply (round64_int 0). lia. Qed.

Lemma round64_nonneg (x : Q) : 0 <= x -> 0 <= round64 x.
Proof.
  intros H. rewrite <- round64_0. apply round64_mono; lra.
Qed.

(** Rounding an integer gives an integer. *)
Lemma round64_integral (n : Z) :
  (0 <= n)%Z -> exists m : Z, (0 <= m)%Z /\ round64 (inject_Z n) == inject_Z m.
Proof.
  intros H.
  assert (Hnn : 0 <= round64 (inject_Z n))
    by (apply round64_nonneg, (inject_Z_le 0); assumption).
  destruct (Z.eq_dec n 0) as [-> | Hnz].
  { exists 0%Z. split; [lia | apply round64_0]. }
  assert (Hpos : (0 < n * 2 ^ 1074)%Z) by lia.
  pose proof (grid_exp_inject _ Hpos) as Hge.
  set (y := inject_Z (n * 2 ^ 1074)) in *.
  assert (Hr : round64 (inject_Z n) == inject_Z (round_units y) / scale).
  { unfold round64. now rewrite (round_units_comp _ _ (scale_units n)). }
  destruct (Z.le_gt_cases (grid_exp y) 1074) as [Hsmall | Hbig].
  - exists n. split; [assumption |].
    assert (Hy : (n * 2 ^ 1074 = n * 2 ^ (1074 - grid_exp y) * grid y)%Z).
    { unfold grid. pose proof (grid_exp_nonneg y).
      rewrite <- Z.mul_assoc, <- Z.pow_add_r by lia. do 2 f_equal. lia. }
    rewrite Hr.
    assert (Hu : round_units y = (n * 2 ^ 1074)%Z).
    { rewrite Hy. apply round_units_exact. rewrite <- Hy. reflexivity. }
    rewrite Hu, inject_Z_mult. unfold scale. field. discriminate.
  - set (k := round_half_even (y / inject_Z (grid y))).
    exists (k * 2 ^ (grid_exp y - 1074))%Z.
    assert (Hu : round_units y = (k * 2 ^ (grid_exp y - 1074) * 2 ^ 1074)%Z).
    { unfold round_units, grid. fold k.
      rewrite <- Z.mul_assoc, <- Z.pow_add_r by lia. do 2 f_equal. lia. }
    assert (Hv : round64 (inject_Z n)
                 == inject_Z (k * 2 ^ (grid_exp y - 1074))).
    { rewrite Hr, Hu, (inject_Z_mult _ (2 ^ 1074)). unfold scale.
      field. discriminate. }
    split; [| exact Hv].
    rewrite Hv in Hnn. rewrite (Zle_Qle 0). exact Hnn.
Qed.

Lemma round_half_even_near (r : Q) :
  r <= inject_Z (round_half_even r) + (1 # 2).
Proof.
  unfold round_half_even.
  pose proof (Qlt_floor r) as Hlt. rewrite inject_Z_plus in Hlt.
  change (inject_Z 1) with 1 in Hlt.
  destruct (Qcompare (r - inject_Z (Qfloor r)) (1 # 2)) eqn:C.
  - rewrite <- Qeq_alt in C. destruct (Z.even _).
    + lra.
    + rewrite inject_Z_plus. change (inject_Z 1) with 1. lra.
  - rewrite <- Qlt_alt in C. lra.
  - rewrite inject_Z_plus. change (inject_Z 1) with 1. lra.
Qed.

(** From 1 on, rounding down loses at most one part in [2^53]. *)
Lemma round64_loss (x : Q) :
  1 <= x -> x <= round64 x * (1 + (1 # 2 ^ 53)).
Proof.
  intros H1. unfold round64.
  pose proof scale_pos as Hs.
  set (y := x * scale).
  assert (Hy : inject_Z (2 ^ 1074) <= y).
  { unfold y. change (inject_Z (2 ^ 1074)) with scale.
    rewrite <- (Qmult_1_l scale) at 1. apply Qmult_le_compat_r; lra. }
  assert (Hy0 : 0 <= y) by (apply Qle_trans with (2 := Hy); discriminate).
  assert (Hge : (0 < grid_exp y)%Z).
  { unfold grid_exp. rewrite Qfloor_abs_nonneg by assumption.
    assert (HN : (2 ^ 1074 <= Qfloor y)%Z).
    { rewrite <- (Qfloor_Z (2 ^ 1074)). now apply Qfloor_resp_le. }
    assert (1074 <= Z.log2 (Qfloor y))%Z by (apply Z.log2_le_pow2; lia).
    lia. }
  pose proof (round_units_ge_bottom y Hy0 Hge) as Hk.
  unfold round_units in *. unfold grid in *.
  set (e := grid_exp y) in *.
  set (g := (2 ^ e)%Z) in *.
  assert (Hg : (0 < g)%Z) by (apply Z.pow_pos_nonneg; lia).
  assert (HgQ : 0 < inject_Z g) by now apply (inject_Z_lt 0).
  pose proof (round_half_even_near (y / inject_Z g)) as Hnear.
  set (k := round_half_even (y / inject_Z g)) in *.
  assert (Hk52 : (2 ^ 52 <= k)%Z).
  { replace (e + 52)%Z with (52 + e)%Z in Hk by lia.
    rewrite Z.pow_add_r in Hk by lia. fold g in Hk. nia. }
  assert (Hyk : y <= (inject_Z k + (1 # 2)) * inject_Z g).
  { apply Qmult_le_compat_r with (z := inject_Z g) in Hnear; [| lra].
    assert (E : y / inject_Z g * inject_Z g == y) by (field; lra).
    now rewrite E in Hnear. }
  assert (HkQ : inject_Z (2 ^ 52) <= inject_Z k) by now apply inject_Z_le.
  assert (Ex : x == y / scale) by (unfold y; field; lra).
  rewrite Ex, inject_Z_mult.
  assert (Hgoal : y <= inject_Z k * inject_Z g * (1 + (1 # 2 ^ 53))).
  { apply Qle_trans with (1 := Hyk).
    assert (inject_Z g * (1 # 2) <= inject_Z k * inject_Z g * (1 # 2 ^ 53)).
    { assert (E : inject_Z g * (1 # 2)
                  == inject_Z (2 ^ 52) * inject_Z g * (1 # 2 ^ 53))
        by (change (inject_Z (2 ^ 52)) with (4503599627370496 # 1);
            change (1 # 2 ^ 53) with (1 # 9007199254740992); field).
      rewrite E. apply Qmult_le_compat_r; [| discriminate].
      apply Qmult_le_compat_r; lra. }
    lra. }
  apply Qmult_le_compat_r with (z := / scale) in Hgoal;
    [| apply Qlt_le_weak, Qinv_lt_0_compat; assumption].
  unfold Qdiv.
  apply Qle_trans with (1 := Hgoal). apply Qle_lteq. right. field. lra.
Qed.

Lemma round64_just_above_1 : round64 (1 + (1 # 2 ^ 53)) == 1.
Proof. vm_compute. reflexivity. Qed.

(** The largest finite double and what lies just above it. *)
Lemma round64_above_max :
  round64 (inject_Z (2 ^ 1024 - 2 ^ 971) + 1) == inject_Z (2 ^ 1024 - 2 ^ 971).
Proof. vm_compute. reflexivity. Qed.

Lemma double_le_max (v : number) :
  0 <= v -> is_double v = true -> v <= inject_Z (2 ^ 1024 - 2 ^ 971).
Proof.
  intros H0 Hd. unfold is_double, overflows in Hd.
  apply andb_true_iff in Hd as [E Hfin].
  apply Qeq_bool_iff in E.
  apply negb_true_iff, not_true_iff_false in Hfin.
  rewrite Qle_bool_iff, E, (Qabs_pos v H0) in Hfin.
  destruct (Qlt_le_dec (inject_Z (2 ^ 1024 - 2 ^ 971)) v) as [Hgt | Hle];
    [exfalso | assumption].
  assert (Hlt : v < inject_Z (2 ^ 1024)) by (apply Qnot_le_lt; exact Hfin).
  clear Hfin.
  set (y := v * scale).
  assert (Hy1 : inject_Z ((2 ^ 53 - 1) * 2 ^ 2045) < y).
  { unfold y, scale.
    change (inject_Z ((2 ^ 53 - 1) * 2 ^ 2045))
      with (inject_Z (2 ^ 1024 - 2 ^ 971) * inject_Z (2 ^ 1074)).
    apply Qmult_lt_compat_r; [reflexivity | assumption]. }
  assert (Hy2 : y < inject_Z (2 ^ 53 * 2 ^ 2045)).
  { unfold y, scale.
    change (inject_Z (2 ^ 53 * 2 ^ 2045))
      with (inject_Z (2 ^ 1024) * inject_Z (2 ^ 1074)).
    apply Qmult_lt_compat_r; [reflexivity | assumption]. }
  assert (Hy0 : 0 <= y).
  { apply Qle_trans with (2 := Qlt_le_weak _ _ Hy1). discriminate. }
  assert (Hge : grid_exp y = 2045%Z).
  { unfold grid_exp. rewrite Qfloor_abs_nonneg by assumption.
    rewrite (Z.log2_unique (Qfloor y) 2097); [reflexivity | lia |].
    split.
    - rewrite <- (Qfloor_Z (2 ^ 2097)). apply Qfloor_resp_le.
      apply Qle_trans with (2 := Qlt_le_weak _ _ Hy1). discriminate.
    - rewrite Zlt_Qlt. apply Qle_lt_trans with (1 := Qfloor_le y). exact Hy2. }
  assert (Hu : inject_Z (round_units y) == y).
  { unfold round64 in E. fold y in E. pose proof scale_pos.
    assert (Ey : y == inject_Z (round_units y) / scale * scale)
      by (rewrite E; reflexivity).
    rewrite Ey at 2. field. lra. }
  unfold round_units, grid in Hu. rewrite Hge in Hu.
  set (k := round_half_even _) in Hu.
  rewrite <- Hu in Hy1, Hy2.
  rewrite <- Zlt_Qlt in Hy1, Hy2. lia.
Qed.

(** A sum of non-negative numbers that rounds below [2^1024] is finite. *)
Lemma num_add_finite (x y : number) :
  0 <= x + y -> round64 (x + y) < inject_Z (2 ^ 1024) ->
  num_add x y = Finite (num_plus x y).
Proof.
  intros H0 Hup. unfold num_add, num_plus.
  pose proof (round64_nonneg _ H0) as Hlow.
  destruct (Qle_bool _ _) eqn:C1.
  { apply Qle_bool_iff in C1. exfalso. apply (Qle_not_lt _ _ C1 Hup). }
  destruct (Qle_bool _ (- _)) eqn:C2; [| reflexivity].
  apply Qle_bool_iff in C2. exfalso.
  apply (Qle_not_lt _ _ (Qle_trans _ _ _ Hlow C2)). reflexivity.
Qed.

(** One more than a counter is a finite double. *)
Lemma plus_one_finite (v : number) :
  0 <= v -> is_double v = true -> num_add v 1 = Finite (num_plus v 1).
Proof.
  intros H0 Hd. apply num_add_finite; [lra |].
  apply Qle_lt_trans with (inject_Z (2 ^ 1024 - 2 ^ 971)); [| reflexivity].
  rewrite <- round64_above_max. apply round64_mono; [lra |].
  pose proof (double_le_max v H0 Hd). lra.
Qed.

Lemma round64_above_2_53 :
  round64 (inject_Z (2 ^ 53) + 1) == inject_Z (2 ^ 53).
Proof. vm_compute. reflexivity. Qed.

(** A time value plus a fraction is a finite double. *)
Lemma clock_plus_fraction_finite (now : Z) (rnd : number) :
  (0 <= now <= 2 ^ 53)%Z -> 0 <= rnd -> rnd <= 1 ->
  num_add (inject_Z now) rnd = Finite (num_plus (inject_Z now) rnd).
Proof.
  intros Hnow H0 H1.
  assert (Hn0 : 0 <= inject_Z now) by (apply (inject_Z_le 0); lia).
  apply num_add_finite; [lra |].
  apply Qle_lt_trans with (inject_Z (2 ^ 53)); [| reflexivity].
  rewrite <- round64_above_2_53. apply round64_mono; [lra |].
  pose proof (inject_Z_le now (2 ^ 53) ltac:(lia)). lra.
Qed.

End Rounding.

(** ** Running the effects *)

Section Execution.

Lemma exec_bind {A B : Type} (m : M A) (k : A -> M B) (w : world) :
  exec (bind m k) w = exec (k (fst (m w))) (exec m w).
Proof. unfold exec, bind. now destruct (m w). Qed.

Lemma exec_then {A B : Type} (m : M A) (k : M B) (w : world) :
  exec (m ;; k) w = exec k (exec m w).
Proof. apply exec_bind. Qed.

Lemma collection_after_sync (next : list comparison) (w : world) :
  collection_after (sync next) w = next.
Proof. reflexivity. Qed.

Lemma log_sync (next : list comparison) (w : world) :
  log (exec (sync next) w) = log w ++ sync_effects next.
Proof. cbn. now rewrite <- !app_assoc. Qed.

Lemma collection_after_settle (resolved : bool) (w : world) :
  collection_after (saveData_settle resolved) w = comparisons (ui w).
Proof. now destruct resolved. Qed.

Lemma collection_after_add (e : bool) (env : ambient) (w : world) :
  collection_after (addComparison e env) w
  = new_row (form (ui w)) env :: comparisons (ui w).
Proof. now destruct e. Qed.

Lemma collection_after_vote (i : number) (side : string) (w : world) :
  collection_after (vote i side) w
  = map (vote_row i side) (comparisons (ui w)).
Proof. reflexivity. Qed.

(** Unfolds a handler down to the effects it emits. *)
Ltac run_handler :=
  unfold collection_after, resetVotes, deleteComparison, confirm,
    exec, bind, emit, ret; cbn.

Lemma collection_after_reset (answer : string -> bool) (i : number)
      (w : world) :
  collection_after (resetVotes answer i) w
  = if answer "Reset votes?"
    then map (reset_row i) (comparisons (ui w))
    else comparisons (ui w).
Proof. run_handler. now destruct (answer _). Qed.

Lemma collection_after_delete (answer : string -> bool) (i : number)
      (w : world) :
  collection_after (deleteComparison answer i) w
  = if answer "Delete this comparison?"
    then List.filter (fun c => strict_neq (id c) i) (comparisons (ui w))
    else comparisons (ui w).
Proof. run_handler. now destruct (answer _). Qed.

End Execution.

(** ** Loading *)

Section Loading.

Variable w : world.

(** C7.  When [loadData] fails, because [fetch] rejects or because the body
    does not parse, the collection is what it was before the call; the
    failure is written to the console, and the one read that was issued is
    not repeated. *)
Theorem loadData_failure_keeps_state :
  (collection_after (loadData FetchRejected) w = comparisons (ui w)
   /\ log (exec (loadData FetchRejected) w)
      = log w ++ [SetLoading true;
                  Fetch (GET (WEB_APP_URL ++ "?action=list"));
                  ConsoleError "Failed to load sheet data";
                  SetLoading false])
  /\ (collection_after (loadData JsonRejected) w = comparisons (ui w)
      /\ log (exec (loadData JsonRejected) w)
         = log w ++ [SetLoading true;
                     Fetch (GET (WEB_APP_URL ++ "?action=list"));
                     ConsoleError "Failed to load sheet data";
                     SetLoading false]).
Proof.
  repeat split; cbn; now rewrite <- ?app_assoc.
Qed.

(** C6, amended.  A response that parses but is not an array empties the
    collection; a body that does not parse leaves the collection as it
    was. *)
Theorem loadData_not_array_empties (v : json) :
  (Array_isArray v = false ->
   collection_after (loadData (Parsed v)) w = [])
  /\ collection_after (loadData JsonRejected) w = comparisons (ui w).
Proof.
  split; [| reflexivity].
  intros H. unfold collection_after; cbn. unfold rows_or_empty.
  now rewrite H.
Qed.

Lemma loadData_array_replaces (rows : list comparison) :
  collection_after (loadData (Parsed (JArray rows))) w = rows.
Proof. reflexivity. Qed.

End Loading.

Lemma loadData_not_array_empties_witness :
  collection_after
    (loadData (Parsed (JString (text_of "Script function not found"))))
                   (world_of [sample_row 1 3 4]) = [].
Proof.
  apply (proj1 (loadData_not_array_empties (world_of [sample_row 1 3 4])
                  (JString (text_of "Script function not found")))).
  reflexivity.
Defined.

(** C6 as stated fails: when the body does not parse, the record that was
    there stays. *)
Lemma loadData_unparsable_keeps_rows :
  collection_after (loadData JsonRejected) (world_of [sample_row 1 3 4])
  = [sample_row 1 3 4]
  /\ collection_after (loadData JsonRejected) (world_of [sample_row 1 3 4])
     <> [].
Proof. split; [reflexivity | discriminate]. Qed.

(** ** Pushing *)

(** C8.  [sync] sets the collection first and issues the write after it;
    the body of the write is the whole new collection; and however the
    write settles, the collection is still the one that was set. *)
Theorem sync_is_optimistic (next : list comparison) (w : world) :
  log (exec (sync next) w)
  = log w ++ [SetComparisons next; SetSaving true;
              Fetch (POST WEB_APP_URL "application/json"
                       {| action := "update"; data := next |})]
  /\ collection_after (sync next) w = next
  /\ collection_after (sync next ;; saveData_settle false) w = next
  /\ collection_after (sync next ;; saveData_settle true) w = next
  /\ log (exec (sync next ;; saveData_settle false) w)
     = log (exec (sync next) w)
       ++ [ConsoleError "Failed to save sheet data"; SetSaving false].
Proof.
  repeat split; cbn; now rewrite <- ?app_assoc.
Qed.

(** Every handler that changes the collection does so through [sync]; a
    declined confirmation does nothing but ask. *)
Lemma perform_log (x : user_action) (w : world) :
  log (exec (perform x) w)
  = log w
    ++ match x with
       | Add f env =>
           [SetForm f; PreventDefault]
           ++ sync_effects (new_row f env :: comparisons (ui w))
           ++ [SetForm Form.empty; SetShowAdd false]
       | Vote i side =>
           sync_effects (map (vote_row i side) (comparisons (ui w)))
       | Reset i true =>
           Confirm "Reset votes?"
           :: sync_effects (map (reset_row i) (comparisons (ui w)))
       | Reset i false => [Confirm "Reset votes?"]
       | Delete i true =>
           Confirm "Delete this comparison?"
           :: sync_effects (List.filter (fun c => strict_neq (id c) i)
                                        (comparisons (ui w)))
       | Delete i false => [Confirm "Delete this comparison?"]
       end.
Proof.
  destruct x as [f env | i side | i [|] | i [|]]; cbn;
    now rewrite <- ?app_assoc.
Qed.

(** ** Lists of records *)

Section Collections.

Lemma strict_eq_iff (x y : number) : strict_eq x y = true <-> x == y.
Proof. apply Qeq_bool_iff. Qed.

Lemma strict_neq_iff (x y : number) : strict_neq x y = true <-> ~ x == y.
Proof.
  unfold strict_neq. rewrite negb_true_iff, <- not_true_iff_false.
  now rewrite strict_eq_iff.
Qed.

Lemma strict_neq_false (x y : number) :
  strict_neq x y = false <-> strict_eq x y = true.
Proof. unfold strict_neq. apply negb_false_iff. Qed.

Lemma filter_all {A : Type} (p : A -> bool) (l : list A) :
  (forall x, In x l -> p x = true) -> List.filter p l = l.
Proof.
  induction l as [| x l IH]; intros H; cbn; [reflexivity |].
  rewrite (H x (or_introl eq_refl)). f_equal. apply IH.
  intros y Hy. apply H. now right.
Qed.

Lemma map_fix {A : Type} (f : A -> A) (l : list A) :
  (forall x, In x l -> f x = x) -> map f l = l.
Proof.
  intros H. rewrite <- (map_id l) at 2. now apply map_ext_in.
Qed.

(** With distinct ids, filtering one id out removes one record. *)
Lemma filter_out_unique (i : number) (l : list comparison) :
  unique_ids l = true ->
  (exists c, In c l /\ strict_eq (id c) i = true) ->
  exists l1 c l2,
    l = l1 ++ c :: l2 /\ strict_eq (id c) i = true
    /\ List.filter (fun c => strict_neq (id c) i) l = l1 ++ l2.
Proof.
  induction l as [| d l IH]; intros Hu [c [Hin Hc]]; [destruct Hin |].
  cbn in Hu. apply andb_true_iff in Hu as [Hd Hu].
  cbn [List.filter].
  destruct (strict_neq (id d) i) eqn:Ed.
  - destruct Hin as [-> | Hin].
    { apply strict_neq_iff in Ed. apply strict_eq_iff in Hc. contradiction. }
    destruct (IH Hu (ex_intro _ c (conj Hin Hc))) as (l1 & c' & l2 & E & Hc' & F).
    exists (d :: l1), c', l2. cbn. now rewrite E at 1; rewrite F.
  - apply strict_neq_false in Ed.
    exists [], d, l. repeat split; [assumption |].
    cbn. apply filter_all. intros x Hx.
    rewrite forallb_forall in Hd. specialize (Hd x Hx).
    apply strict_neq_iff. apply strict_neq_iff in Hd.
    apply strict_eq_iff in Ed. intros F. apply Hd. now rewrite F, Ed.
Qed.

End Collections.

(** ** Deleting *)

(** C2, amended.  In a collection whose ids are pairwise distinct,
    [deleteComparison] of an id that is present, once confirmed, removes
    the one record with that id, keeps the others in their order, and
    leaves the collection one shorter. *)
Theorem deleteComparison_removes_the_match
        (answer : string -> bool) (i : number) (w : world) :
  answer "Delete this comparison?" = true ->
  unique_ids (comparisons (ui w)) = true ->
  (exists c, In c (comparisons (ui w)) /\ strict_eq (id c) i = true) ->
  exists l1 c l2,
    comparisons (ui w) = l1 ++ c :: l2
    /\ strict_eq (id c) i = true
    /\ collection_after (deleteComparison answer i) w = l1 ++ l2
    /\ S (List.length (collection_after (deleteComparison answer i) w))
       = List.length (comparisons (ui w)).
Proof.
  intros Hyes Hu Hin.
  rewrite collection_after_delete, Hyes.
  destruct (filter_out_unique i _ Hu Hin) as (l1 & c & l2 & E & Hc & F).
  exists l1, c, l2. rewrite F, E. repeat split; try assumption.
  rewrite !length_app. cbn. lia.
Qed.

(** An id that no record has: nothing is removed. *)
Lemma deleteComparison_absent
      (answer : string -> bool) (i : number) (w : world) :
  (forall c, In c (comparisons (ui w)) -> strict_eq (id c) i = false) ->
  collection_after (deleteComparison answer i) w = comparisons (ui w).
Proof.
  intros H. rewrite collection_after_delete.
  destruct (answer _); [| reflexivity].
  apply filter_all. intros c Hc. unfold strict_neq. now rewrite (H c Hc).
Qed.

(** C2 as stated fails: deleting an id that is not there removes nothing,
    and deleting an id that two records share removes both. *)
Lemma deleteComparison_not_always_one :
  S (List.length (collection_after (deleteComparison (always true) 2)
                              (world_of [sample_row 1 0 0])))
  <> List.length (comparisons (ui (world_of [sample_row 1 0 0])))
  /\ S (List.length (collection_after (deleteComparison (always true) 1)
                                 (world_of two_with_one_id)))
     <> List.length (comparisons (ui (world_of two_with_one_id))).
Proof. split; vm_compute; discriminate. Qed.

Lemma deleteComparison_removes_the_match_witness :
  exists l1 c l2,
    comparisons (ui (world_of [sample_row 1 0 0; sample_row 2 5 1]))
    = l1 ++ c :: l2
    /\ strict_eq (id c) 2 = true
    /\ collection_after (deleteComparison (always true) 2)
         (world_of [sample_row 1 0 0; sample_row 2 5 1]) = l1 ++ l2
    /\ S (List.length (collection_after (deleteComparison (always true) 2)
                    (world_of [sample_row 1 0 0; sample_row 2 5 1])))
       = List.length (comparisons
                   (ui (world_of [sample_row 1 0 0; sample_row 2 5 1]))).
Proof.
  apply (deleteComparison_removes_the_match (always true) 2
           (world_of [sample_row 1 0 0; sample_row 2 5 1])).
  - reflexivity.
  - reflexivity.
  - exists (sample_row 2 5 1). split; [right; left; reflexivity | reflexivity].
Defined.

(** ** Resetting *)

(** C3.  [resetVotes] answered no leaves the collection, and so every
    counter, as it was; answered yes it leaves every record at its place
    and the record with the given id there has both counters at zero. *)
Theorem resetVotes_confirmation_gate
        (answer : string -> bool) (i : number) (w : world) :
  (answer "Reset votes?" = false ->
   collection_after (resetVotes answer i) w = comparisons (ui w))
  /\ (answer "Reset votes?" = true ->
      forall k c,
        nth_error (comparisons (ui w)) k = Some c ->
        strict_eq (id c) i = true ->
        exists c',
          nth_error (collection_after (resetVotes answer i) w) k = Some c'
          /\ id c' = id c /\ votesA c' = 0 /\ votesB c' = 0).
Proof.
  rewrite collection_after_reset. split; intros Ha; rewrite Ha.
  - reflexivity.
  - intros k c Hk Hc. exists (with_votes c 0 0).
    rewrite nth_error_map, Hk. cbn. unfold reset_row. rewrite Hc.
    repeat split.
Qed.

Lemma resetVotes_confirmation_gate_witness :
  collection_after (resetVotes (always false) 2)
                   (world_of [sample_row 1 0 0; sample_row 2 5 1])
  = [sample_row 1 0 0; sample_row 2 5 1]
  /\ exists c',
      nth_error (collection_after (resetVotes (always true) 2)
                   (world_of [sample_row 1 0 0; sample_row 2 5 1])) 1
      = Some c'
      /\ id c' = id (sample_row 2 5 1) /\ votesA c' = 0 /\ votesB c' = 0.
Proof.
  split.
  - apply (proj1 (resetVotes_confirmation_gate (always false) 2
                    (world_of [sample_row 1 0 0; sample_row 2 5 1]))).
    reflexivity.
  - apply (proj2 (resetVotes_confirmation_gate (always true) 2
                    (world_of [sample_row 1 0 0; sample_row 2 5 1]))
             eq_refl 1%nat (sample_row 2 5 1)); reflexivity.
Defined.

(** ** Voting *)

Section Counters.

Lemma nonneg_integer_spec (v : number) :
  nonneg_integer v = true <-> exists n : Z, (0 <= n)%Z /\ v == inject_Z n.
Proof.
  unfold nonneg_integer. rewrite andb_true_iff, Qle_bool_iff, Qeq_bool_iff.
  split.
  - intros [H0 E]. exists (Qfloor v). split; [now apply Qfloor_nonneg | exact E].
  - intros [n [Hn E]]. split.
    + rewrite E. now apply (inject_Z_le 0).
    + rewrite (Qfloor_comp _ _ E), Qfloor_Z. exact E.
Qed.

(** Below [2^53] the sum [v + 1] is exact. *)
Lemma num_plus_one_exact (v : number) :
  nonneg_integer v = true -> v < inject_Z (2 ^ 53) ->
  num_plus v 1 == v + 1.
Proof.
  intros Hv Hlt. apply nonneg_integer_spec in Hv as [n [Hn E]].
  unfold num_plus.
  assert (E1 : v + 1 == inject_Z (n + 1)) by (rewrite E, inject_Z_plus; reflexivity).
  rewrite E1. apply round64_int.
  rewrite E in Hlt. rewrite <- Zlt_Qlt in Hlt. lia.
Qed.

(** At any size it is again a non-negative integer. *)
Lemma num_plus_one_integer (v : number) :
  nonneg_integer v = true -> nonneg_integer (num_plus v 1) = true.
Proof.
  intros Hv. apply nonneg_integer_spec in Hv as [n [Hn E]].
  apply nonneg_integer_spec. unfold num_plus.
  assert (E1 : v + 1 == inject_Z (n + 1)) by (rewrite E, inject_Z_plus; reflexivity).
  destruct (round64_integral (n + 1) ltac:(lia)) as [m [Hm Em]].
  exists m. split; [assumption |]. now rewrite E1.
Qed.

End Counters.

(** C4, amended.  [vote(id, "A")] keeps every record at its place.  A
    record with another id is untouched.  A record with the given id keeps
    [votesB] and every other field, and its [votesA] becomes the binary64
    sum [votesA + 1], which is [votesA + 1] exactly when [votesA] is a
    non-negative integer below [2^53].  When no record has the id the
    collection is unchanged. *)
Theorem vote_A_effect (i : number) (w : world) :
  List.length (collection_after (vote i "A") w)
  = List.length (comparisons (ui w))
  /\ (forall k c,
        nth_error (comparisons (ui w)) k = Some c ->
        strict_eq (id c) i = false ->
        nth_error (collection_after (vote i "A") w) k = Some c)
  /\ (forall k c,
        nth_error (comparisons (ui w)) k = Some c ->
        strict_eq (id c) i = true ->
        exists c',
          nth_error (collection_after (vote i "A") w) k = Some c'
          /\ id c' = id c /\ a c' = a c /\ b c' = b c
          /\ aImg c' = aImg c /\ bImg c' = bImg c
          /\ createdAt c' = createdAt c
          /\ votesB c' = votesB c
          /\ votesA c' = num_plus (votesA c) 1
          /\ (nonneg_integer (votesA c) = true ->
              votesA c < inject_Z (2 ^ 53) ->
              votesA c' == votesA c + 1))
  /\ ((forall c, In c (comparisons (ui w)) -> strict_eq (id c) i = false) ->
      collection_after (vote i "A") w = comparisons (ui w)).
Proof.
  rewrite collection_after_vote. split; [apply length_map |].
  split; [| split].
  - intros k c Hk Hc. rewrite nth_error_map, Hk. cbn.
    unfold vote_row. now rewrite Hc.
  - intros k c Hk Hc. exists (vote_row i "A" c).
    rewrite nth_error_map, Hk. cbn. unfold vote_row. rewrite Hc. cbn.
    repeat split. apply num_plus_one_exact.
  - intros H. apply map_fix. intros c Hc. unfold vote_row.
    now rewrite (H c Hc).
Qed.

Lemma vote_A_effect_witness :
  (exists c',
      nth_error (collection_after (vote 2 "A")
                   (world_of [sample_row 1 0 0; sample_row 2 5 1])) 1
      = Some c'
      /\ votesB c' = 1 /\ votesA c' == 5 + 1)
  /\ nth_error (collection_after (vote 2 "A")
                  (world_of [sample_row 1 0 0; sample_row 2 5 1])) 0
     = Some (sample_row 1 0 0)
  /\ collection_after (vote 7 "A")
                      (world_of [sample_row 1 0 0; sample_row 2 5 1])
     = [sample_row 1 0 0; sample_row 2 5 1].
Proof.
  pose proof (vote_A_effect 2 (world_of [sample_row 1 0 0; sample_row 2 5 1]))
    as (_ & Hother & Hsame & _).
  pose proof (vote_A_effect 7 (world_of [sample_row 1 0 0; sample_row 2 5 1]))
    as (_ & _ & _ & Hnone).
  split; [| split].
  - destruct (Hsame 1%nat (sample_row 2 5 1) eq_refl eq_refl)
      as (c' & Hk & _ & _ & _ & _ & _ & _ & HB & _ & HA).
    exists c'. repeat split; [exact Hk | exact HB |].
    apply HA; reflexivity.
  - apply (Hother 0%nat (sample_row 1 0 0)); reflexivity.
  - apply Hnone. intros c [<- | [<- | []]]; reflexivity.
Defined.

(** C4 as stated fails at [2^53]: the counter is a non-negative integer
    and a double, and a vote leaves it where it is. *)
Lemma vote_A_stuck_at_2_53 :
  nonneg_integer (votesA saturated_row) = true
  /\ is_double (votesA saturated_row) = true
  /\ exists c',
      nth_error (collection_after (vote 1 "A") (world_of [saturated_row])) 0
      = Some c'
      /\ votesA c' == votesA saturated_row
      /\ ~ votesA c' == votesA saturated_row + 1.
Proof.
  split; [reflexivity |]. split; [vm_compute; reflexivity |].
  eexists. split; [reflexivity |]. split.
  - vm_compute. reflexivity.
  - vm_compute. discriminate.
Qed.

(** ** Adding *)

Section Adding.

Lemma new_id_after_clock (env : ambient) :
  (0 <= Date_now env <= 2 ^ 53)%Z -> 0 <= Math_random env ->
  inject_Z (Date_now env) <= new_id env.
Proof.
  intros Hnow Hrnd. unfold new_id, num_plus.
  rewrite <- (round64_int (Date_now env) Hnow) at 1.
  apply round64_mono; [apply (inject_Z_le 0) |]; lia || lra.
Qed.

End Adding.

(** C5, amended.  For every collection, [addComparison] puts a new record
    first, ahead of the old collection; its counters are both 0 and its id
    is the binary64 sum [Date.now() + Math.random()].  When the clock
    reads a time between 0 and [2^53] that is past every id of the old
    collection, and the random number is not negative, the new id differs
    from all of them. *)
Theorem addComparison_prepends_new_row (e : bool) (env : ambient) (w : world) :
  exists row,
    collection_after (addComparison e env) w = row :: comparisons (ui w)
    /\ votesA row = 0 /\ votesB row = 0
    /\ id row = num_plus (inject_Z (Date_now env)) (Math_random env)
    /\ ((0 <= Date_now env <= 2 ^ 53)%Z ->
        0 <= Math_random env ->
        (forall c, In c (comparisons (ui w)) ->
                   id c < inject_Z (Date_now env)) ->
        forall c, In c (comparisons (ui w)) ->
                  strict_neq (id c) (id row) = true).
Proof.
  exists (new_row (form (ui w)) env).
  rewrite collection_after_add. repeat split.
  intros Hnow Hrnd Hold c Hc. apply strict_neq_iff. cbn.
  pose proof (new_id_after_clock env Hnow Hrnd).
  specialize (Hold c Hc). lra.
Qed.

Lemma addComparison_prepends_new_row_witness :
  exists row,
    collection_after (addComparison true later_draw)
                     (exec (addComparison true first_draw) initial_world)
    = row :: comparisons (ui (exec (addComparison true first_draw)
                                   initial_world))
    /\ votesA row = 0 /\ votesB row = 0
    /\ id row = num_plus (inject_Z (Date_now later_draw))
                         (Math_random later_draw)
    /\ forall c,
        In c (comparisons (ui (exec (addComparison true first_draw)
                                    initial_world))) ->
        strict_neq (id c) (id row) = true.
Proof.
  destruct (addComparison_prepends_new_row true later_draw
              (exec (addComparison true first_draw) initial_world))
    as (row & E & HA & HB & Hid & Hfresh).
  exists row. split; [exact E |]. split; [exact HA |]. split; [exact HB |].
  split; [exact Hid |]. apply Hfresh.
  - cbn. lia.
  - cbn. lra.
  - intros c [<- | []]. vm_compute. reflexivity.
Defined.

(** C5 as stated fails: a second submission in the same millisecond, with
    another random draw, gets the id of the record that is already there. *)
Lemma addComparison_repeats_an_id :
  ~ Math_random second_draw == Math_random first_draw
  /\ exists row old,
      comparisons (ui (exec (addComparison true first_draw) initial_world))
      = [old]
      /\ collection_after (addComparison true second_draw)
           (exec (addComparison true first_draw) initial_world)
         = [row; old]
      /\ strict_eq (id row) (id old) = true.
Proof.
  split; [vm_compute; discriminate |].
  do 2 eexists. split; [reflexivity |]. split; [reflexivity |].
  vm_compute. reflexivity.
Qed.

(** C9.  A left name of one space passes the [required] check of the form
    and is stored as the empty string. *)
Theorem submit_blank_name_stores_empty :
  required_filled blank_form = true
  /\ exists row,
      collection_after (emit (SetForm blank_form) ;; submit_form first_draw)
                       initial_world
      = [row]
      /\ a row = [].
Proof.
  split; [reflexivity |]. eexists. split; reflexivity.
Qed.

(** ** Runs of user actions *)

Section Runs.

Lemma forallb_after_map {A B : Type} (p : B -> bool) (f : A -> B)
      (l : list A) :
  forallb p (map f l) = forallb (fun x => p (f x)) l.
Proof.
  induction l as [| x l IH]; [reflexivity |]. cbn. now rewrite IH.
Qed.

Lemma unique_ids_map (f : comparison -> comparison) (l : list comparison) :
  (forall c, id (f c) = id c) -> unique_ids (map f l) = unique_ids l.
Proof.
  intros Hf. induction l as [| c l IH]; [reflexivity |].
  cbn. rewrite IH, forallb_after_map, Hf. f_equal.
  clear IH. induction l as [| d l IH]; [reflexivity |].
  cbn. now rewrite IH, Hf.
Qed.

Lemma forallb_filter_keeps {A : Type} (p q : A -> bool) (l : list A) :
  forallb p l = true -> forallb p (List.filter q l) = true.
Proof.
  rewrite !forallb_forall. intros H x Hx.
  apply filter_In in Hx as [Hx _]. now apply H.
Qed.

Lemma unique_ids_filter (q : comparison -> bool) (l : list comparison) :
  unique_ids l = true -> unique_ids (List.filter q l) = true.
Proof.
  induction l as [| c l IH]; [reflexivity |].
  cbn. intros H. apply andb_true_iff in H as [Hc Hl].
  destruct (q c); cbn; [| now apply IH].
  apply andb_true_iff. split; [now apply forallb_filter_keeps | now apply IH].
Qed.

Lemma id_vote_row (i : number) (side : string) (c : comparison) :
  id (vote_row i side c) = id c.
Proof. unfold vote_row. now destruct (strict_eq _ _). Qed.

Lemma id_reset_row (i : number) (c : comparison) :
  id (reset_row i c) = id c.
Proof. unfold reset_row. now destruct (strict_eq _ _). Qed.

Lemma counters_ok_vote_row (i : number) (side : string) (c : comparison) :
  counters_ok c = true -> counters_ok (vote_row i side c) = true.
Proof.
  unfold counters_ok, vote_row. intros H.
  apply andb_true_iff in H as [HA HB].
  destruct (strict_eq _ _); cbn; [| now rewrite HA, HB].
  apply andb_true_iff. split.
  - destruct (String.eqb side "A"); [now apply num_plus_one_integer | exact HA].
  - destruct (String.eqb side "B"); [now apply num_plus_one_integer | exact HB].
Qed.

Lemma counters_ok_reset_row (i : number) (c : comparison) :
  counters_ok c = true -> counters_ok (reset_row i c) = true.
Proof.
  unfold reset_row. now destruct (strict_eq _ _).
Qed.

Lemma forallb_map_keeps {A : Type} (p : A -> bool) (f : A -> A) (l : list A) :
  (forall x, p x = true -> p (f x) = true) ->
  forallb p l = true -> forallb p (map f l) = true.
Proof.
  intros Hf. rewrite !forallb_forall. intros H y Hy.
  apply in_map_iff in Hy as [x [<- Hx]]. now apply Hf, H.
Qed.

(** The collection once one action has been carried out. *)
Lemma collection_after_perform (x : user_action) (w : world) :
  collection_after (perform x) w
  = match x with
    | Add f env => new_row f env :: comparisons (ui w)
    | Vote i side => map (vote_row i side) (comparisons (ui w))
    | Reset i answer =>
        if answer then map (reset_row i) (comparisons (ui w))
        else comparisons (ui w)
    | Delete i answer =>
        if answer
        then List.filter (fun c => strict_neq (id c) i) (comparisons (ui w))
        else comparisons (ui w)
    end.
Proof.
  destruct x as [f env | i side | i answer | i answer]; cbn [perform].
  - reflexivity.
  - reflexivity.
  - apply collection_after_reset.
  - apply collection_after_delete.
Qed.

Lemma perform_keeps_well_formed (x : user_action) (w : world) :
  well_formed (comparisons (ui w)) ->
  match x with
  | Add _ env =>
      forallb (fun c => strict_neq (id c) (new_id env)) (comparisons (ui w))
      = true
  | _ => True
  end ->
  well_formed (collection_after (perform x) w).
Proof.
  intros [Hu Hc] Hfresh. rewrite collection_after_perform.
  destruct x as [f env | i side | i [|] | i [|]]; try (split; assumption).
  - split; cbn; [now rewrite Hfresh, Hu | exact Hc].
  - split.
    + rewrite unique_ids_map; [assumption | apply id_vote_row].
    + apply forallb_map_keeps; [apply counters_ok_vote_row | assumption].
  - split.
    + rewrite unique_ids_map; [assumption | apply id_reset_row].
    + apply forallb_map_keeps; [apply counters_ok_reset_row | assumption].
  - split.
    + now apply unique_ids_filter.
    + now apply forallb_filter_keeps.
Qed.

Lemma run_keeps_well_formed (xs : list user_action) :
  forall w,
    well_formed (comparisons (ui w)) ->
    fresh_adds xs w = true ->
    well_formed (collection_after (run xs) w).
Proof.
  induction xs as [| x xs IH]; intros w Hw Hf; [exact Hw |].
  cbn [fresh_adds] in Hf. apply andb_true_iff in Hf as [Hx Hf].
  unfold collection_after. cbn [run]. rewrite exec_then.
  apply IH; [| assumption].
  apply perform_keeps_well_formed; [assumption |].
  destruct x; try exact I. exact Hx.
Qed.

End Runs.

(** The counters need no assumption on the ids. *)
Lemma run_counters (xs : list user_action) :
  forall w,
    forallb counters_ok (comparisons (ui w)) = true ->
    forallb counters_ok (collection_after (run xs) w) = true.
Proof.
  induction xs as [| x xs IH]; intros w Hw; [exact Hw |].
  unfold collection_after. cbn [run]. rewrite exec_then. apply IH.
  fold (collection_after (perform x) w). rewrite collection_after_perform.
  destruct x as [f env | i side | i [|] | i [|]]; try assumption.
  - apply forallb_map_keeps; [apply counters_ok_vote_row | assumption].
  - apply forallb_map_keeps; [apply counters_ok_reset_row | assumption].
  - now apply forallb_filter_keeps.
Qed.

(** C1, amended.  Start from the empty collection and carry out any finite
    sequence of add, vote, reset and delete actions.  Every [votesA] and
    [votesB] of the final collection is a non-negative integer; and when
    no add of the sequence draws an id that a record of the collection has
    at that moment, the ids of the final collection are pairwise
    distinct. *)
Theorem run_unique_ids_and_counters (xs : list user_action) :
  (fresh_adds xs initial_world = true ->
   unique_ids (collection_after (run xs) initial_world) = true)
  /\ forallb counters_ok (collection_after (run xs) initial_world) = true.
Proof.
  split.
  - intros Hf.
    apply (run_keeps_well_formed xs initial_world); [| exact Hf].
    split; reflexivity.
  - now apply run_counters.
Qed.

Lemma run_unique_ids_and_counters_witness :
  unique_ids
    (collection_after
       (run [Add pie_form first_draw; Vote (new_id first_draw) "A";
             Add blank_form later_draw; Vote (new_id later_draw) "B";
             Reset (new_id first_draw) true;
             Delete (new_id later_draw) false])
       initial_world) = true
  /\ forallb counters_ok
       (collection_after
          (run [Add pie_form first_draw; Vote (new_id first_draw) "A";
                Add blank_form later_draw; Vote (new_id later_draw) "B";
                Reset (new_id first_draw) true;
                Delete (new_id later_draw) false])
          initial_world) = true.
Proof.
  pose proof (run_unique_ids_and_counters
                [Add pie_form first_draw; Vote (new_id first_draw) "A";
                 Add blank_form later_draw; Vote (new_id later_draw) "B";
                 Reset (new_id first_draw) true;
                 Delete (new_id later_draw) false]) as [Hids Hcounters].
  split; [apply Hids; vm_compute; reflexivity | exact Hcounters].
Defined.

(** C1 as stated fails: two adds with one reading of the clock and random
    draws [2^-14] apart leave two records with one id; near [1.7e12] the
    doubles are [2^-12] apart. *)
Lemma run_two_adds_share_an_id :
  unique_ids
    (collection_after (run [Add pie_form first_draw; Add pie_form second_draw])
                      initial_world) = false.
Proof. vm_compute. reflexivity. Qed.

(** ** Percentages *)

Section Percentages.

Lemma Math_round_bounds (p : number) :
  0 <= p -> p <= 100 -> (0 <= Qfloor (p + (1 # 2)) <= 100)%Z.
Proof.
  intros H0 H1. split.
  - apply Qfloor_nonneg. lra.
  - change 100%Z with (Qfloor (201 # 2)). apply Qfloor_resp_le. lra.
Qed.

(** The quotient of a part by the rounded whole, scaled to a percentage. *)
Lemma scaled_ratio_bounds (v r : number) :
  0 <= v -> v <= r * (1 + (1 # 2 ^ 53)) -> 0 < r ->
  0 <= num_times (round64 (v / r)) 100
  /\ num_times (round64 (v / r)) 100 <= 100.
Proof.
  intros H0 Hle Hr.
  assert (Hq0 : 0 <= v / r) by (apply Qle_shift_div_l; lra).
  assert (Hq1 : v / r <= 1 + (1 # 2 ^ 53))
    by (apply Qle_shift_div_r; [assumption |];
        rewrite (Qmult_comm _ r); exact Hle).
  assert (Hr0 : 0 <= round64 (v / r)) by now apply round64_nonneg.
  assert (Hr1 : round64 (v / r) <= 1).
  { rewrite <- round64_just_above_1. now apply round64_mono. }
  unfold num_times. split.
  - apply round64_nonneg. apply Qmult_le_0_compat; lra.
  - rewrite <- (round64_int 100) at 2 by lia.
    apply round64_mono; [apply Qmult_le_0_compat; lra |].
    change (inject_Z 100) with 100. lra.
Qed.

Variable c : comparison.
Hypothesis HA : nonneg_integer (votesA c) = true.
Hypothesis HB : nonneg_integer (votesB c) = true.

Lemma part_of_total (r : number) :
  total c = Finite r -> ~ r == 0 ->
  0 <= votesA c /\ votesA c <= r * (1 + (1 # 2 ^ 53)) /\ 0 < r.
Proof.
  apply nonneg_integer_spec in HA as [n [Hn En]].
  apply nonneg_integer_spec in HB as [m [Hm Em]].
  assert (H0 : 0 <= votesA c) by (rewrite En; now apply (inject_Z_le 0)).
  assert (H1 : 0 <= votesB c) by (rewrite Em; now apply (inject_Z_le 0)).
  unfold total, num_add. intros E Hnz.
  destruct (Qle_bool _ _); [discriminate |].
  destruct (Qle_bool _ _); [discriminate |].
  injection E as <-.
  assert (Es : votesA c + votesB c == inject_Z (n + m))
    by (rewrite En, Em, inject_Z_plus; reflexivity).
  assert (Hnm : (1 <= n + m)%Z).
  { destruct (Z.eq_dec (n + m) 0) as [Z0 | NZ]; [| lia].
    exfalso. apply Hnz. rewrite Es, Z0. apply round64_0. }
  assert (Hsum : 1 <= votesA c + votesB c)
    by (rewrite Es; now apply (inject_Z_le 1)).
  pose proof (round64_loss _ Hsum) as Hloss.
  pose proof (round64_nonneg (votesA c + votesB c) ltac:(lra)) as Hnn.
  split; [assumption |]. split; [lra |].
  destruct (Qlt_le_dec 0 (round64 (votesA c + votesB c))) as [L | L];
    [assumption |].
  exfalso. apply Hnz. lra.
Qed.

Lemma pctA_integer :
  exists n : Z, (0 <= n <= 100)%Z /\ pctA c = inject_Z n.
Proof.
  unfold pctA. destruct (total c) as [r | |] eqn:Et; cbn [truthy num_div].
  - destruct (Qeq_bool r 0) eqn:Er; cbn [negb].
    + exists 50%Z. split; [lia | reflexivity].
    + apply Qeq_bool_neq in Er.
      destruct (part_of_total r Et Er) as (H0 & Hle & Hr).
      destruct (scaled_ratio_bounds _ _ H0 Hle Hr) as [Hp0 Hp1].
      eexists. split; [| reflexivity]. now apply Math_round_bounds.
  - exists 0%Z. split; [lia | vm_compute; reflexivity].
  - exists 0%Z. split; [lia | vm_compute; reflexivity].
Qed.

Lemma total_truthy : 0 < votesA c + votesB c -> truthy (total c) = true.
Proof.
  intros Hpos.
  apply nonneg_integer_spec in HA as [n [Hn En]].
  apply nonneg_integer_spec in HB as [m [Hm Em]].
  unfold total, num_add.
  destruct (Qle_bool _ _); [reflexivity |].
  destruct (Qle_bool _ _); [reflexivity |].
  cbn. apply negb_true_iff, not_true_iff_false. rewrite Qeq_bool_iff.
  assert (Es : votesA c + votesB c == inject_Z (n + m))
    by (rewrite En, Em, inject_Z_plus; reflexivity).
  rewrite Es in Hpos.
  assert (Hnm : (0 < n + m)%Z) by (rewrite (Zlt_Qlt 0); exact Hpos).
  assert (H1 : 1 <= round64 (votesA c + votesB c)).
  { rewrite Es, <- (round64_int 1) by lia.
    apply round64_mono; [apply (inject_Z_le 0) | apply inject_Z_le]; lia. }
  intros F. rewrite F in H1. apply (Qle_not_lt _ _ H1). reflexivity.
Qed.

Lemma total_zero :
  votesA c == 0 -> votesB c == 0 -> truthy (total c) = false.
Proof.
  intros EA EB. unfold total, num_add.
  assert (E : round64 (votesA c + votesB c) == 0).
  { assert (Es : votesA c + votesB c == 0) by (rewrite EA, EB; ring).
    rewrite Es. apply round64_0. }
  destruct (Qle_bool _ _) eqn:C1.
  { apply Qle_bool_iff in C1. rewrite E in C1.
    exfalso. apply (Qle_not_lt _ _ C1). reflexivity. }
  destruct (Qle_bool _ (- _)) eqn:C2.
  { apply Qle_bool_iff in C2. rewrite E in C2.
    exfalso. apply (Qle_not_lt _ _ C2). reflexivity. }
  cbn. apply negb_false_iff, Qeq_bool_iff, E.
Qed.

End Percentages.

(** Binary64 at work: 29 votes out of 200 are shown as 14 percent, since
    [29 / 200 * 100] evaluates to a double just below 14.5. *)
Example pctA_29_of_200 :
  pctA (sample_row 7 29 171) == 14 /\ pctB (sample_row 7 29 171) == 86.
Proof. split; vm_compute; reflexivity. Qed.

(** * Further properties of the component *)

(** ** The filter box *)

Section Filtering.

Variable L : lowering.

Lemma starts_with_spec (s p : text) :
  starts_with s p = true <-> exists post, s = p ++ post.
Proof.
  revert s. induction p as [| d p IH]; intros s; cbn.
  - split; [intros _; now exists s | reflexivity].
  - destruct s as [| c s]; cbn.
    + split; [discriminate | intros [post E]; discriminate E].
    + rewrite andb_true_iff, N.eqb_eq, IH. split.
      * intros [-> [post ->]]. now exists post.
      * intros [post E]. injection E as -> ->. split; [reflexivity |].
        now exists post.
Qed.

(** [includes] finds exactly the substrings. *)
Lemma includes_spec (s sub : text) :
  includes s sub = true <-> occurs sub s.
Proof.
  unfold occurs. induction s as [| c s IH]; cbn [includes];
    rewrite orb_true_iff, starts_with_spec.
  - split.
    + intros [[post E] | F]; [| discriminate F]. now exists [], post.
    + intros [pre [post E]]. left.
      destruct pre; [now exists post | discriminate E].
  - rewrite IH. split.
    + intros [[post E] | [pre [post E]]].
      * now exists [], post.
      * exists (c :: pre), post. cbn. now rewrite E.
    + intros [pre [post E]]. destruct pre as [| d pre]; cbn in E.
      * left. now exists post.
      * right. injection E as _ E. now exists pre, post.
Qed.

Lemma includes_empty (s : text) : includes s [] = true.
Proof. now destruct s. Qed.

Lemma shown_vote_row (flt : text) (i : number) (side : string)
      (c : comparison) :
  shown L flt (vote_row i side c) = shown L flt c.
Proof. unfold vote_row. now destruct (strict_eq _ _). Qed.

Lemma shown_reset_row (flt : text) (i : number) (c : comparison) :
  shown L flt (reset_row i c) = shown L flt c.
Proof. unfold reset_row. now destruct (strict_eq _ _). Qed.

Lemma filter_map_keeps {A : Type} (p : A -> bool) (f : A -> A) (l : list A) :
  (forall x, p (f x) = p x) ->
  List.filter p (map f l) = map f (List.filter p l).
Proof.
  intros H. induction l as [| x l IH]; [reflexivity |].
  cbn. rewrite H. destruct (p x); cbn; now rewrite IH.
Qed.

End Filtering.

(** X1.  With an empty filter box every record of the collection is shown,
    in the order of the collection. *)
Theorem filtered_empty_filter (L : lowering) (s : state) :
  filter s = [] -> filtered L s = comparisons s.
Proof.
  intros E. unfold filtered. rewrite E. apply filter_all.
  intros c _. unfold shown. rewrite toLowerCase_empty.
  now rewrite includes_empty.
Qed.

Lemma filtered_empty_filter_witness :
  filtered lower_letters (ui (world_of two_with_one_id)) = two_with_one_id.
Proof.
  apply (filtered_empty_filter lower_letters (ui (world_of two_with_one_id))).
  reflexivity.
Defined.

(** X2.  A record is shown exactly when it is in the collection and the
    lower-cased text of the filter box occurs in its lower-cased [a] or in
    its lower-cased [b], the lower-casing being that of [toLowerCase]. *)
Theorem filtered_shows_the_matches
        (L : lowering) (s : state) (c : comparison) :
  In c (filtered L s)
  <-> In c (comparisons s)
      /\ (occurs (toLowerCase L (filter s)) (toLowerCase L (a c))
          \/ occurs (toLowerCase L (filter s)) (toLowerCase L (b c))).
Proof.
  unfold filtered. rewrite filter_In. unfold shown.
  now rewrite orb_true_iff, !includes_spec.
Qed.

(** X3.  A vote or a confirmed reset changes neither which records are
    shown nor their order: what is shown afterwards is what was shown
    before, with the new counters. *)
Theorem vote_and_reset_keep_the_view
        (L : lowering) (answer : string -> bool) (i : number) (side : string)
        (w : world) :
  filtered L (ui (exec (vote i side) w))
  = map (vote_row i side) (filtered L (ui w))
  /\ (answer "Reset votes?" = true ->
      filtered L (ui (exec (resetVotes answer i) w))
      = map (reset_row i) (filtered L (ui w))).
Proof.
  split.
  - unfold filtered. cbn. apply filter_map_keeps. intros c.
    apply shown_vote_row.
  - intros Ha. unfold filtered, resetVotes, confirm, exec, bind, emit, ret.
    cbn. rewrite Ha. cbn. apply filter_map_keeps. intros c.
    apply shown_reset_row.
Qed.

Lemma vote_and_reset_keep_the_view_witness :
  filtered lower_letters
           (ui (exec (resetVotes (always true) 1)
                     (world_of [sample_row 1 3 4; sample_row 2 5 1])))
  = map (reset_row 1)
        (filtered lower_letters
                  (ui (world_of [sample_row 1 3 4; sample_row 2 5 1]))).
Proof.
  apply (proj2 (vote_and_reset_keep_the_view lower_letters (always true) 1 "A"
                  (world_of [sample_row 1 3 4; sample_row 2 5 1]))).
  reflexivity.
Defined.

Lemma filtered_shows_the_matches_witness :
  In (sample_row 2 5 1)
     (filtered lower_letters
               (ui (exec (type_filter (text_of "HOM"))
                         (world_of [sample_row 1 3 4; sample_row 2 5 1])))).
Proof.
  apply (proj2 (filtered_shows_the_matches lower_letters
                  (ui (exec (type_filter (text_of "HOM"))
                            (world_of [sample_row 1 3 4; sample_row 2 5 1])))
                  (sample_row 2 5 1))).
  split; [right; left; reflexivity |].
  right. exists [], (text_of "e"). reflexivity.
Defined.

(** ** More on voting and resetting *)

Section Frames.

Lemma same_but_counters_with_votes (c : comparison) (va vb : number) :
  same_but_counters c (with_votes c va vb).
Proof. repeat split. Qed.

Lemma same_but_counters_refl (c : comparison) : same_but_counters c c.
Proof. repeat split. Qed.

Lemma Forall2_map_right {A : Type} (R : A -> A -> Prop) (f : A -> A)
      (l : list A) :
  (forall x, R x (f x)) -> Forall2 R l (map f l).
Proof.
  intros H. induction l as [| x l IH]; cbn; constructor; auto.
Qed.

Lemma Forall2_same {A : Type} (R : A -> A -> Prop) (l : list A) :
  (forall x, R x x) -> Forall2 R l l.
Proof. intros H. induction l; constructor; auto. Qed.

Lemma with_votes_same (c : comparison) : with_votes c (votesA c) (votesB c) = c.
Proof. now destruct c. Qed.

(** With distinct ids, mapping over one id changes one record. *)
Lemma map_at_unique (f g : comparison -> comparison) (i : number)
      (l : list comparison) :
  (forall c, strict_eq (id c) i = true -> f c = g c) ->
  (forall c, strict_eq (id c) i = false -> f c = c) ->
  unique_ids l = true ->
  (exists c, In c l /\ strict_eq (id c) i = true) ->
  exists l1 c l2,
    l = l1 ++ c :: l2 /\ strict_eq (id c) i = true
    /\ map f l = l1 ++ g c :: l2.
Proof.
  intros Hyes Hno.
  induction l as [| d l IH]; intros Hu [c [Hin Hc]]; [destruct Hin |].
  cbn in Hu. apply andb_true_iff in Hu as [Hd Hu]. cbn [map].
  destruct (strict_eq (id d) i) eqn:Ed.
  - exists [], d, l. repeat split; [assumption |]. cbn.
    rewrite (Hyes d Ed). f_equal. apply map_fix. intros x Hx. apply Hno.
    rewrite forallb_forall in Hd. specialize (Hd x Hx).
    apply strict_neq_iff in Hd. apply strict_eq_iff in Ed.
    apply not_true_iff_false. rewrite strict_eq_iff.
    intros F. apply Hd. now rewrite F, Ed.
  - destruct Hin as [-> | Hin]; [congruence |].
    destruct (IH Hu (ex_intro _ c (conj Hin Hc)))
      as (l1 & c' & l2 & E & Hc' & F).
    exists (d :: l1), c', l2. cbn. rewrite (Hno d Ed), F.
    now rewrite E at 1.
Qed.

End Frames.

(** X4.  A vote, for whatever side, and a reset, confirmed or not, change
    nothing but counters: the collection keeps its length and order, every
    record keeps its id, names, images and creation time, and the
    loading flag, the dialog, the form and the filter box are untouched. *)
Theorem vote_and_reset_only_touch_counters
        (answer : string -> bool) (i : number) (side : string) (w : world) :
  (Forall2 same_but_counters (comparisons (ui w))
           (collection_after (vote i side) w)
   /\ loading (ui (exec (vote i side) w)) = loading (ui w)
   /\ showAdd (ui (exec (vote i side) w)) = showAdd (ui w)
   /\ form (ui (exec (vote i side) w)) = form (ui w)
   /\ filter (ui (exec (vote i side) w)) = filter (ui w))
  /\ (Forall2 same_but_counters (comparisons (ui w))
              (collection_after (resetVotes answer i) w)
      /\ loading (ui (exec (resetVotes answer i) w)) = loading (ui w)
      /\ showAdd (ui (exec (resetVotes answer i) w)) = showAdd (ui w)
      /\ form (ui (exec (resetVotes answer i) w)) = form (ui w)
      /\ filter (ui (exec (resetVotes answer i) w)) = filter (ui w)).
Proof.
  split.
  - split; [| repeat split].
    rewrite collection_after_vote. apply Forall2_map_right. intros c.
    unfold vote_row. destruct (strict_eq _ _);
      [apply same_but_counters_with_votes | apply same_but_counters_refl].
  - split.
    + rewrite collection_after_reset. destruct (answer _).
      * apply Forall2_map_right. intros c. unfold reset_row.
        destruct (strict_eq _ _);
          [apply same_but_counters_with_votes | apply same_but_counters_refl].
      * apply Forall2_same, same_but_counters_refl.
    + unfold resetVotes, confirm, exec, bind, emit, ret. cbn.
      destruct (answer _); repeat split.
Qed.

(** X5.  [vote(id, "B")] leaves [votesA] of a record with the given id as
    it is and sets its [votesB] to the binary64 sum [votesB + 1], which is
    [votesB + 1] exactly when [votesB] is a non-negative integer below
    [2^53]. *)
Theorem vote_B_effect (i : number) (w : world) (k : nat) (c : comparison) :
  nth_error (comparisons (ui w)) k = Some c ->
  strict_eq (id c) i = true ->
  exists c',
    nth_error (collection_after (vote i "B") w) k = Some c'
    /\ votesA c' = votesA c
    /\ votesB c' = num_plus (votesB c) 1
    /\ (nonneg_integer (votesB c) = true ->
        votesB c < inject_Z (2 ^ 53) ->
        votesB c' == votesB c + 1).
Proof.
  intros Hk Hc. exists (vote_row i "B" c).
  rewrite collection_after_vote, nth_error_map, Hk. cbn.
  unfold vote_row. rewrite Hc. cbn. repeat split.
  apply num_plus_one_exact.
Qed.

Lemma vote_B_effect_witness :
  exists c',
    nth_error (collection_after (vote 2 "B")
                 (world_of [sample_row 1 0 0; sample_row 2 5 1])) 1
    = Some c'
    /\ votesA c' = 5 /\ votesB c' == 1 + 1.
Proof.
  destruct (vote_B_effect 2 (world_of [sample_row 1 0 0; sample_row 2 5 1])
              1%nat (sample_row 2 5 1) eq_refl eq_refl)
    as (c' & Hk & HA & _ & HB).
  exists c'. split; [exact Hk |]. split; [exact HA |].
  apply HB; reflexivity.
Defined.

(** X6.  A vote for a side that is neither "A" nor "B" leaves every record
    as it is, and still writes the whole collection to the store. *)
Theorem vote_other_side_changes_nothing
        (i : number) (side : string) (w : world) :
  String.eqb side "A" = false ->
  String.eqb side "B" = false ->
  collection_after (vote i side) w = comparisons (ui w)
  /\ log (exec (vote i side) w)
     = log w ++ sync_effects (comparisons (ui w)).
Proof.
  intros HA HB.
  assert (E : map (vote_row i side) (comparisons (ui w)) = comparisons (ui w)).
  { apply map_fix. intros c _. unfold vote_row. rewrite HA, HB.
    destruct (strict_eq _ _); [apply with_votes_same | reflexivity]. }
  split.
  - now rewrite collection_after_vote.
  - pose proof (perform_log (Vote i side) w) as L. cbn [perform] in L.
    now rewrite L, E.
Qed.

Lemma vote_other_side_changes_nothing_witness :
  collection_after (vote 2 "a") (world_of [sample_row 1 0 0; sample_row 2 5 1])
  = [sample_row 1 0 0; sample_row 2 5 1]
  /\ log (exec (vote 2 "a") (world_of [sample_row 1 0 0; sample_row 2 5 1]))
     = [] ++ sync_effects [sample_row 1 0 0; sample_row 2 5 1].
Proof.
  apply (vote_other_side_changes_nothing 2 "a"
           (world_of [sample_row 1 0 0; sample_row 2 5 1])); reflexivity.
Defined.

(** X7.  In a collection whose ids are pairwise distinct, a vote for an id
    that is present changes one record, the one with that id, and leaves
    the records before and after it as they are. *)
Theorem vote_touches_one_record (i : number) (side : string) (w : world) :
  unique_ids (comparisons (ui w)) = true ->
  (exists c, In c (comparisons (ui w)) /\ strict_eq (id c) i = true) ->
  exists l1 c l2,
    comparisons (ui w) = l1 ++ c :: l2
    /\ strict_eq (id c) i = true
    /\ collection_after (vote i side) w
       = l1 ++ with_votes c
                 (if String.eqb side "A" then num_plus (votesA c) 1
                  else votesA c)
                 (if String.eqb side "B" then num_plus (votesB c) 1
                  else votesB c)
            :: l2.
Proof.
  intros Hu Hin. rewrite collection_after_vote.
  apply (map_at_unique (vote_row i side)
           (fun c => with_votes c
                       (if String.eqb side "A" then num_plus (votesA c) 1
                        else votesA c)
                       (if String.eqb side "B" then num_plus (votesB c) 1
                        else votesB c)) i); try assumption.
  - intros c Hc. unfold vote_row. now rewrite Hc.
  - intros c Hc. unfold vote_row. now rewrite Hc.
Qed.

Lemma vote_touches_one_record_witness :
  exists l1 c l2,
    comparisons (ui (world_of [sample_row 1 0 0; sample_row 2 5 1]))
    = l1 ++ c :: l2
    /\ strict_eq (id c) 2 = true
    /\ collection_after (vote 2 "A")
         (world_of [sample_row 1 0 0; sample_row 2 5 1])
       = l1 ++ with_votes c (num_plus (votesA c) 1) (votesB c) :: l2.
Proof.
  apply (vote_touches_one_record 2 "A"
           (world_of [sample_row 1 0 0; sample_row 2 5 1])).
  - reflexivity.
  - exists (sample_row 2 5 1). split; [right; left; reflexivity | reflexivity].
Defined.

(** ** More on deleting and on confirmations *)

(** X8.  After a confirmed [deleteComparison] the collection holds exactly
    the records that had another id, so no record with the given id is
    left, however many there were; deleting the id again, or voting for
    it, changes nothing more. *)
Theorem deleteComparison_clears_the_id
        (answer : string -> bool) (i : number) (side : string) (w : world) :
  answer "Delete this comparison?" = true ->
  (forall c,
      In c (collection_after (deleteComparison answer i) w)
      <-> In c (comparisons (ui w)) /\ strict_eq (id c) i = false)
  /\ collection_after (deleteComparison answer i)
                      (exec (deleteComparison answer i) w)
     = collection_after (deleteComparison answer i) w
  /\ collection_after (vote i side) (exec (deleteComparison answer i) w)
     = collection_after (deleteComparison answer i) w.
Proof.
  intros Hyes.
  assert (Hin : forall c,
             In c (collection_after (deleteComparison answer i) w)
             <-> In c (comparisons (ui w)) /\ strict_eq (id c) i = false).
  { intros c. rewrite collection_after_delete, Hyes, filter_In.
    unfold strict_neq. now rewrite negb_true_iff. }
  split; [exact Hin |]. split.
  - rewrite (collection_after_delete answer i (exec _ w)), Hyes.
    apply filter_all. intros c Hc. apply Hin in Hc as [_ Hc].
    unfold strict_neq. now rewrite Hc.
  - rewrite collection_after_vote. apply map_fix. intros c Hc.
    apply Hin in Hc as [_ Hc]. unfold vote_row. now rewrite Hc.
Qed.

Lemma deleteComparison_clears_the_id_witness :
  collection_after (deleteComparison (always true) 1)
                   (world_of (sample_row 2 5 1 :: two_with_one_id))
  = [sample_row 2 5 1]
  /\ collection_after (vote 1 "A")
       (exec (deleteComparison (always true) 1)
             (world_of (sample_row 2 5 1 :: two_with_one_id)))
     = collection_after (deleteComparison (always true) 1)
         (world_of (sample_row 2 5 1 :: two_with_one_id)).
Proof.
  split; [reflexivity |].
  apply (deleteComparison_clears_the_id (always true) 1 "A"
           (world_of (sample_row 2 5 1 :: two_with_one_id)) eq_refl).
Defined.

(** X9.  A reset or a delete that is not confirmed does nothing but ask:
    no state cell changes, and nothing is sent to the store. *)
Theorem declined_confirmation_does_nothing
        (answer : string -> bool) (i : number) (w : world) :
  (answer "Reset votes?" = false ->
   exec (resetVotes answer i) w
   = {| ui := ui w; log := log w ++ [Confirm "Reset votes?"] |})
  /\ (answer "Delete this comparison?" = false ->
      exec (deleteComparison answer i) w
      = {| ui := ui w; log := log w ++ [Confirm "Delete this comparison?"] |}).
Proof.
  split; intros Ha;
    unfold resetVotes, deleteComparison, confirm, exec, bind, emit, ret;
    cbn; now rewrite Ha.
Qed.

Lemma declined_confirmation_does_nothing_witness :
  exec (resetVotes (always false) 1) (world_of two_with_one_id)
  = {| ui := ui (world_of two_with_one_id);
       log := [Confirm "Reset votes?"] |}
  /\ exec (deleteComparison (always false) 1) (world_of two_with_one_id)
     = {| ui := ui (world_of two_with_one_id);
          log := [Confirm "Delete this comparison?"] |}.
Proof.
  split.
  - apply (proj1 (declined_confirmation_does_nothing (always false) 1
                    (world_of two_with_one_id))). reflexivity.
  - apply (proj2 (declined_confirmation_does_nothing (always false) 1
                    (world_of two_with_one_id))). reflexivity.
Defined.

(** X10.  After a confirmed reset, a record with the given id is drawn as
    an even split: 50 percent for each side. *)
Theorem reset_shows_even_split
        (answer : string -> bool) (i : number) (w : world)
        (k : nat) (c : comparison) :
  answer "Reset votes?" = true ->
  nth_error (comparisons (ui w)) k = Some c ->
  strict_eq (id c) i = true ->
  exists c',
    nth_error (collection_after (resetVotes answer i) w) k = Some c'
    /\ pctA c' = 50 /\ pctB c' == 50.
Proof.
  intros Ha Hk Hc. exists (with_votes c 0 0).
  rewrite collection_after_reset, Ha, nth_error_map, Hk. cbn.
  unfold reset_row. rewrite Hc. split; [reflexivity |].
  split; vm_compute; reflexivity.
Qed.

Lemma reset_shows_even_split_witness :
  exists c',
    nth_error (collection_after (resetVotes (always true) 2)
                 (world_of [sample_row 1 0 0; sample_row 2 5 1])) 1
    = Some c'
    /\ pctA c' = 50 /\ pctB c' == 50.
Proof.
  apply (reset_shows_even_split (always true) 2
           (world_of [sample_row 1 0 0; sample_row 2 5 1])
           1%nat (sample_row 2 5 1)); reflexivity.
Defined.

(** ** What the store is sent *)

Section Writes.

Lemma last_write_app (l l' : list effect) :
  last_write (l ++ l')
  = match last_write l' with
    | Some d => Some d
    | None => last_write l
    end.
Proof.
  induction l as [| e l IH]; cbn.
  - now destruct (last_write l').
  - rewrite IH. now destruct (last_write l').
Qed.

Lemma perform_last_write (x : user_action) (w : world) :
  last_write (log (exec (perform x) w))
  = if declined x then last_write (log w)
    else Some (collection_after (perform x) w).
Proof.
  rewrite perform_log, last_write_app, collection_after_perform.
  destruct x as [f env | i side | i [|] | i [|]]; reflexivity.
Qed.

Lemma perform_declined (x : user_action) (w : world) :
  declined x = true ->
  collection_after (perform x) w = comparisons (ui w).
Proof.
  rewrite collection_after_perform.
  destruct x as [f env | i side | i [|] | i [|]]; intros H;
    try discriminate H; reflexivity.
Qed.

End Writes.

(** X11.  The store is always sent what the component holds: once some
    action of a run has changed the collection, the latest write issued
    carries exactly the collection held at the end of the run; and a run
    that starts in such a state ends in one. *)
Theorem latest_write_carries_the_collection
        (xs : list user_action) (w : world) :
  last_write (log w) = Some (comparisons (ui w))
  \/ forallb declined xs = false ->
  last_write (log (exec (run xs) w)) = Some (collection_after (run xs) w).
Proof.
  revert w. induction xs as [| x xs IH]; intros w H.
  - destruct H as [H | H]; [exact H | discriminate H].
  - unfold collection_after. cbn [run]. rewrite exec_then. apply IH.
    pose proof (perform_last_write x w) as L.
    destruct (declined x) eqn:D.
    + fold (collection_after (perform x) w).
      rewrite (perform_declined x w D), L.
      destruct H as [H | H]; [now left | right].
      cbn in H. now rewrite D in H.
    + left. exact L.
Qed.

Lemma latest_write_carries_the_collection_witness :
  last_write
    (log (exec (run [Reset 1 false; Add pie_form first_draw;
                     Vote (new_id first_draw) "A"; Delete 5 false])
               initial_world))
  = Some (collection_after
            (run [Reset 1 false; Add pie_form first_draw;
                  Vote (new_id first_draw) "A"; Delete 5 false])
            initial_world).
Proof.
  apply (latest_write_carries_the_collection
           [Reset 1 false; Add pie_form first_draw;
            Vote (new_id first_draw) "A"; Delete 5 false] initial_world).
  right. reflexivity.
Defined.

(** X12.  The saving flag does not count writes: with two writes issued
    and one of them settled, whichever way, the flag is off while the
    other write is still under way. *)
Theorem saving_flag_with_a_write_pending
        (next1 next2 : list comparison) (resolved : bool) (w : world) :
  saving (ui (exec (sync next1 ;; sync next2) w)) = true
  /\ saving (ui (exec (sync next1 ;; sync next2 ;; saveData_settle resolved)
                      w)) = false
  /\ log (exec (sync next1 ;; sync next2 ;; saveData_settle resolved) w)
     = log w ++ sync_effects next1 ++ sync_effects next2
       ++ (if resolved then []
           else [ConsoleError "Failed to save sheet data"])
       ++ [SetSaving false].
Proof.
  destruct resolved; cbn; repeat split; now rewrite <- ?app_assoc.
Qed.

(** ** Loading over local changes *)

(** X13.  Whatever the user does between the issue of the read and its
    settlement, an array that arrives replaces the collection as a whole;
    and however the read settles, the loading flag ends up off. *)
Theorem loadData_overwrites_local_changes
        (xs : list user_action) (rows : list comparison) (r : list_outcome)
        (w : world) :
  collection_after (mount ;; run xs ;; loadData_settle (Parsed (JArray rows)))
                   w = rows
  /\ loading (ui (exec (mount ;; run xs) w)) = true
  /\ loading (ui (exec (mount ;; run xs ;; loadData_settle r) w)) = false.
Proof.
  split; [| split].
  - unfold collection_after. now rewrite !exec_then.
  - rewrite exec_then.
    assert (H0 : loading (ui (exec mount w)) = true) by reflexivity.
    revert H0. generalize (exec mount w). clear w.
    induction xs as [| x xs IH]; intros w H0; [exact H0 |].
    cbn [run]. rewrite exec_then. apply IH.
    destruct x as [f env | i side | i [|] | i [|]]; exact H0.
  - rewrite !exec_then. now destruct r.
Qed.

(** ** More on the percentages *)

Section Shares.

Lemma round_half_even_near_below (r : Q) :
  inject_Z (round_half_even r) - (1 # 2) <= r.
Proof.
  unfold round_half_even.
  pose proof (Qfloor_le r) as Hle.
  destruct (Qcompare (r - inject_Z (Qfloor r)) (1 # 2)) eqn:C.
  - rewrite <- Qeq_alt in C. destruct (Z.even _).
    + lra.
    + rewrite inject_Z_plus. change (inject_Z 1) with 1. lra.
  - lra.
  - rewrite <- Qgt_alt in C. rewrite inject_Z_plus.
    change (inject_Z 1) with 1. lra.
Qed.

(** In the normal range rounding moves a value by at most one part in
    [2^53], either way. *)
Lemma round64_close (x : Q) :
  inject_Z (2 ^ 53) <= x * scale ->
  x <= round64 x * (1 + (1 # 9007199254740992))
  /\ round64 x <= x * (1 + (1 # 9007199254740992)).
Proof.
  intros Hy. unfold round64.
  pose proof scale_pos as Hs.
  set (y := x * scale) in *.
  assert (Hy0 : 0 <= y) by (apply Qle_trans with (2 := Hy); discriminate).
  assert (Hge : (0 < grid_exp y)%Z).
  { unfold grid_exp. rewrite Qfloor_abs_nonneg by assumption.
    assert (HN : (2 ^ 53 <= Qfloor y)%Z).
    { rewrite <- (Qfloor_Z (2 ^ 53)). now apply Qfloor_resp_le. }
    assert (53 <= Z.log2 (Qfloor y))%Z by (apply Z.log2_le_pow2; lia).
    lia. }
  pose proof (round_units_ge_bottom y Hy0 Hge) as Hk.
  pose proof (above_bottom y Hy0 Hge) as Hbot.
  unfold round_units in *. unfold grid in *.
  set (e := grid_exp y) in *.
  replace (e + 52)%Z with (52 + e)%Z in Hk, Hbot by lia.
  rewrite Z.pow_add_r in Hk, Hbot by lia.
  set (g := (2 ^ e)%Z) in *.
  assert (Hg : (0 < g)%Z) by (apply Z.pow_pos_nonneg; lia).
  assert (HgQ : 0 < inject_Z g) by now apply (inject_Z_lt 0).
  pose proof (round_half_even_near (y / inject_Z g)) as Hnear.
  pose proof (round_half_even_near_below (y / inject_Z g)) as Hbelow.
  set (k := round_half_even (y / inject_Z g)) in *.
  assert (Hk52 : (2 ^ 52 <= k)%Z) by nia.
  assert (E : y / inject_Z g * inject_Z g == y) by (field; lra).
  assert (Hyk : y <= (inject_Z k + (1 # 2)) * inject_Z g).
  { apply Qmult_le_compat_r with (z := inject_Z g) in Hnear; [| lra].
    now rewrite E in Hnear. }
  assert (Hky : (inject_Z k - (1 # 2)) * inject_Z g <= y).
  { apply Qmult_le_compat_r with (z := inject_Z g) in Hbelow; [| lra].
    now rewrite E in Hbelow. }
  assert (HkQ : inject_Z (2 ^ 52) <= inject_Z k) by now apply inject_Z_le.
  rewrite inject_Z_mult in Hbot.
  change (inject_Z (2 ^ 52)) with (4503599627370496 # 1) in *.
  assert (Hkg : 4503599627370496 * inject_Z g <= inject_Z k * inject_Z g)
    by (apply Qmult_le_compat_r; lra).
  set (G := inject_Z g) in *. set (K := inject_Z k * G) in *.
  assert (Hyk' : y <= K + (1 # 2) * G)
    by (apply Qle_trans with (1 := Hyk); apply Qle_lteq; right;
        unfold K; ring).
  assert (Hky' : K - (1 # 2) * G <= y)
    by (apply Qle_trans with (2 := Hky); apply Qle_lteq; right;
        unfold K; ring).
  assert (Ex : x == y / scale) by (unfold y; field; lra).
  assert (Er : inject_Z (k * g) / scale == K / scale)
    by (rewrite inject_Z_mult; reflexivity).
  rewrite Er.
  assert (Hinv : 0 <= / scale) by (apply Qlt_le_weak, Qinv_lt_0_compat; assumption).
  split.
  - assert (H1 : y <= K * (1 + (1 # 9007199254740992))) by lra.
    apply Qmult_le_compat_r with (z := / scale) in H1; [| assumption].
    rewrite Ex. unfold Qdiv.
    apply Qle_trans with (1 := H1). apply Qle_lteq. right. ring.
  - assert (H1 : K <= y * (1 + (1 # 9007199254740992))) by lra.
    apply Qmult_le_compat_r with (z := / scale) in H1; [| assumption].
    rewrite Ex. unfold Qdiv.
    apply Qle_trans with (1 := H1). apply Qle_lteq. right. ring.
Qed.

(** Doubling a double is exact. *)
Lemma round64_twice (x : Q) :
  0 <= x -> round64 x == x -> round64 (x + x) == x + x.
Proof.
  intros H0 E.
  pose proof scale_pos as Hs.
  set (N := round_units (x * scale)).
  assert (Ey : x * scale == inject_Z N).
  { unfold round64 in E. fold N in E.
    assert (E' : x * scale == inject_Z N / scale * scale)
      by (rewrite E; reflexivity).
    rewrite E'. field. lra. }
  assert (HN : (0 <= N)%Z).
  { rewrite (Zle_Qle 0). rewrite <- Ey. apply Qmult_le_0_compat; lra. }
  assert (Hdiv : exists k, N = (k * grid (inject_Z N))%Z).
  { exists (round_half_even (inject_Z N / inject_Z (grid (inject_Z N)))).
    unfold N at 1. rewrite (round_units_comp _ _ Ey). reflexivity. }
  assert (E2 : (x + x) * scale == inject_Z (2 * N))
    by (rewrite inject_Z_mult, <- Ey; ring).
  assert (Hgoal : round_units (inject_Z (2 * N)) = (2 * N)%Z).
  { destruct (Z.eq_dec N 0) as [-> | Hnz]; [reflexivity |].
    destruct Hdiv as [k Hk].
    unfold grid in Hk. rewrite grid_exp_inject in Hk by lia.
    pose proof (Z.log2_nonneg N) as Hl.
    assert (Hge2 : grid_exp (inject_Z (2 * N))
                   = Z.max (Z.log2 N + 1 - 52) 0).
    { rewrite grid_exp_inject by lia. rewrite Z.log2_double by lia. lia. }
    destruct (Z.le_gt_cases 52 (Z.log2 N)) as [Hbig | Hsmall].
    - assert (Hy : (2 * N = k * grid (inject_Z (2 * N)))%Z).
      { unfold grid. rewrite Hge2.
        replace (Z.max (Z.log2 N + 1 - 52) 0)
          with (1 + Z.max (Z.log2 N - 52) 0)%Z by lia.
        rewrite Z.pow_add_r by lia. rewrite Hk at 1. ring. }
      rewrite Hy at 2. apply round_units_exact. now rewrite <- Hy.
    - assert (Hy : (2 * N = 2 * N * grid (inject_Z (2 * N)))%Z).
      { unfold grid. rewrite Hge2.
        replace (Z.max (Z.log2 N + 1 - 52) 0) with 0%Z by lia.
        ring. }
      rewrite Hy at 2. apply round_units_exact. now rewrite <- Hy. }
  unfold round64. rewrite (round_units_comp _ _ E2), Hgoal.
  rewrite inject_Z_mult, <- Ey. field. lra.
Qed.

Lemma round64_half : round64 (1 # 2) == 1 # 2.
Proof. vm_compute. reflexivity. Qed.

Lemma Math_round_comp (x y : number) : x == y -> Math_round x = Math_round y.
Proof.
  intros E. unfold Math_round. f_equal. apply Qfloor_comp. now rewrite E.
Qed.

(** [pctA] for a finite, non-zero total that is the sum [t]. *)
Lemma pctA_of_finite_total (c : comparison) (t x : number) :
  round64 (votesA c + votesB c) == t ->
  0 < t -> t < inject_Z (2 ^ 1024) ->
  votesA c / t == x ->
  pctA c = Math_round (round64 (round64 x * 100)).
Proof.
  intros Et H0 Hup Ex. unfold pctA, total, num_add.
  destruct (Qle_bool _ _) eqn:C1.
  { apply Qle_bool_iff in C1. rewrite Et in C1. exfalso.
    apply (Qle_not_lt _ _ C1 Hup). }
  destruct (Qle_bool _ (- _)) eqn:C2.
  { apply Qle_bool_iff in C2. rewrite Et in C2. exfalso.
    assert (- inject_Z (2 ^ 1024) < 0) by reflexivity. lra. }
  cbn [truthy num_div].
  assert (Hnz : Qeq_bool (round64 (votesA c + votesB c)) 0 = false).
  { apply not_true_iff_false. rewrite Qeq_bool_iff, Et. lra. }
  rewrite Hnz. cbn [negb]. apply Math_round_comp. unfold num_times.
  assert (Eq : votesA c / round64 (votesA c + votesB c) == x)
    by (rewrite Et; exact Ex).
  now rewrite Eq.
Qed.

Lemma pctB_of_pctA (c : comparison) (n : Z) :
  (0 <= n <= 100)%Z -> pctA c = inject_Z n -> pctB c == inject_Z (100 - n).
Proof.
  intros Hn E. unfold pctB, num_minus. rewrite E.
  assert (E' : 100 - inject_Z n == inject_Z (100 - n)).
  { unfold Zminus. rewrite inject_Z_plus, inject_Z_opp. reflexivity. }
  rewrite E'. apply round64_int. lia.
Qed.

Lemma is_double_range (x : number) :
  0 <= x -> is_double x = true ->
  round64 x == x /\ x < inject_Z (2 ^ 1024).
Proof.
  intros H0 Hd. unfold is_double, overflows in Hd.
  apply andb_true_iff in Hd as [E Hfin]. apply Qeq_bool_iff in E.
  apply negb_true_iff, not_true_iff_false in Hfin.
  rewrite Qle_bool_iff, E, (Qabs_pos x H0) in Hfin.
  split; [exact E | now apply Qnot_le_lt].
Qed.

End Shares.

(** X14.  When all the votes are on one side, that side is shown with 100
    percent and the other with 0. *)
Theorem all_votes_on_one_side (c : comparison) :
  (0 < votesA c -> votesB c == 0 -> is_double (votesA c) = true ->
   pctA c = 100 /\ pctB c == 0)
  /\ (votesA c == 0 -> 0 < votesB c -> is_double (votesB c) = true ->
      pctA c = 0 /\ pctB c == 100).
Proof.
  split.
  - intros HA HB Hd.
    destruct (is_double_range _ (Qlt_le_weak _ _ HA) Hd) as [E Hup].
    assert (Ep : pctA c = Math_round (round64 (round64 1 * 100))).
    { apply (pctA_of_finite_total c (votesA c) 1); try assumption.
      - rewrite HB, Qplus_0_r. exact E.
      - field. lra. }
    assert (E100 : pctA c = inject_Z 100) by (rewrite Ep; vm_compute; reflexivity).
    split; [exact E100 |]. apply (pctB_of_pctA c 100); [lia | exact E100].
  - intros HA HB Hd.
    destruct (is_double_range _ (Qlt_le_weak _ _ HB) Hd) as [E Hup].
    assert (Ep : pctA c = Math_round (round64 (round64 0 * 100))).
    { apply (pctA_of_finite_total c (votesB c) 0); try assumption.
      - rewrite HA, Qplus_0_l. exact E.
      - rewrite HA. field. lra. }
    assert (E0 : pctA c = inject_Z 0) by (rewrite Ep; vm_compute; reflexivity).
    split; [exact E0 |]. apply (pctB_of_pctA c 0); [lia | exact E0].
Qed.

Lemma all_votes_on_one_side_witness :
  (pctA (sample_row 7 12 0) = 100 /\ pctB (sample_row 7 12 0) == 0)
  /\ (pctA (sample_row 7 0 3) = 0 /\ pctB (sample_row 7 0 3) == 100).
Proof.
  split.
  - apply (proj1 (all_votes_on_one_side (sample_row 7 12 0)));
      vm_compute; reflexivity.
  - apply (proj2 (all_votes_on_one_side (sample_row 7 0 3)));
      vm_compute; reflexivity.
Defined.

(** X15.  Equal counters, not zero and with a finite sum, are shown as 50
    and 50. *)
Theorem equal_votes_show_even_split (c : comparison) :
  0 < votesA c ->
  votesB c == votesA c ->
  is_double (votesA c) = true ->
  votesA c + votesA c < inject_Z (2 ^ 1024) ->
  pctA c = 50 /\ pctB c == 50.
Proof.
  intros HA HB Hd Hup.
  destruct (is_double_range _ (Qlt_le_weak _ _ HA) Hd) as [E _].
  assert (Ep : pctA c = Math_round (round64 (round64 (1 # 2) * 100))).
  { apply (pctA_of_finite_total c (votesA c + votesA c) (1 # 2));
      try assumption.
    - rewrite HB. apply round64_twice; [lra | exact E].
    - lra.
    - field. lra. }
  assert (E50 : pctA c = inject_Z 50) by (rewrite Ep; vm_compute; reflexivity).
  split; [exact E50 |]. apply (pctB_of_pctA c 50); [lia | exact E50].
Qed.

Lemma equal_votes_show_even_split_witness :
  pctA (sample_row 7 (inject_Z (2 ^ 53)) (inject_Z (2 ^ 53))) = 50
  /\ pctB (sample_row 7 (inject_Z (2 ^ 53)) (inject_Z (2 ^ 53))) == 50.
Proof.
  apply (equal_votes_show_even_split
           (sample_row 7 (inject_Z (2 ^ 53)) (inject_Z (2 ^ 53))));
    vm_compute; reflexivity.
Defined.

(** The share and the percentage shown for it. *)
Lemma pctA_near_share (c : comparison) :
  nonneg_integer (votesA c) = true ->
  nonneg_integer (votesB c) = true ->
  0 < votesA c + votesB c ->
  votesA c + votesB c <= inject_Z (2 ^ 53) ->
  pctA c - (1 # 2) - (1 # 1000000000000)
  <= 100 * votesA c / (votesA c + votesB c)
  /\ 100 * votesA c / (votesA c + votesB c)
     <= pctA c + (1 # 2) + (1 # 1000000000000).
Proof.
  intros HA HB Hpos Hsafe.
  pose proof HA as HA'. pose proof HB as HB'.
  apply nonneg_integer_spec in HA' as [n [Hn En]].
  apply nonneg_integer_spec in HB' as [m [Hm Em]].
  set (t := votesA c + votesB c) in *.
  assert (Et : t == inject_Z (n + m))
    by (unfold t; rewrite En, Em, inject_Z_plus; reflexivity).
  assert (Hnm : (0 < n + m <= 2 ^ 53)%Z).
  { rewrite Et in Hpos, Hsafe.
    rewrite <- (Zlt_Qlt 0) in Hpos. rewrite <- Zle_Qle in Hsafe. lia. }
  assert (Er : round64 t == t) by (rewrite Et; apply round64_int; lia).
  set (x := votesA c / t).
  assert (Ep : pctA c = Math_round (round64 (round64 x * 100))).
  { apply (pctA_of_finite_total c t x); try assumption; try reflexivity.
    apply Qle_lt_trans with (1 := Hsafe). reflexivity. }
  assert (Ex : 100 * votesA c / t == 100 * x) by (unfold x; field; lra).
  rewrite Ex.
  assert (Hx0 : 0 <= x).
  { unfold x. apply Qle_shift_div_l; [assumption |].
    rewrite En. rewrite Qmult_0_l. now apply (inject_Z_le 0). }
  assert (Hx1 : x <= 1).
  { unfold x. apply Qle_shift_div_r; [assumption |].
    unfold t. rewrite Em.
    pose proof (inject_Z_le 0 m Hm). change (inject_Z 0) with 0 in *. lra. }
  set (p := round64 (round64 x * 100)) in *.
  assert (Hfloor : inject_Z (Qfloor (p + (1 # 2))) <= p + (1 # 2)
                   /\ p + (1 # 2) < inject_Z (Qfloor (p + (1 # 2))) + 1).
  { split; [apply Qfloor_le |].
    pose proof (Qlt_floor (p + (1 # 2))) as L.
    rewrite inject_Z_plus in L. exact L. }
  rewrite Ep. unfold Math_round.
  set (P := inject_Z (Qfloor (p + (1 # 2)))) in *.
  destruct (Z.eq_dec n 0) as [Hz | Hnz].
  - assert (Ex0 : x == 0).
    { unfold x. rewrite En, Hz. unfold Qdiv. ring. }
    assert (Ep0 : p == 0).
    { unfold p. rewrite Ex0, round64_0.
      assert (E0 : 0 * 100 == 0) by ring. rewrite E0. apply round64_0. }
    rewrite Ex0. rewrite Ep0 in Hfloor. lra.
  - assert (Hxlow : 1 <= x * inject_Z (2 ^ 53)).
    { unfold x.
      assert (E1 : votesA c / t * inject_Z (2 ^ 53)
                   == votesA c * inject_Z (2 ^ 53) / t) by (field; lra).
      rewrite E1. apply Qle_shift_div_l; [assumption |].
      assert (1 <= votesA c) by (rewrite En; apply (inject_Z_le 1); lia).
      assert (L : inject_Z (2 ^ 53) <= votesA c * inject_Z (2 ^ 53)).
      { rewrite <- (Qmult_1_l (inject_Z (2 ^ 53))) at 1.
        apply Qmult_le_compat_r; [assumption | discriminate]. }
      lra. }
    change (inject_Z (2 ^ 53)) with (9007199254740992 # 1) in Hxlow.
    assert (Hxs : inject_Z (2 ^ 53) <= x * scale).
    { assert (Es : x * scale
                   == x * (9007199254740992 # 1) * inject_Z (2 ^ 1021)).
      { unfold scale.
        change (inject_Z (2 ^ 1074))
          with ((9007199254740992 # 1) * inject_Z (2 ^ 1021)). ring. }
      rewrite Es.
      apply Qle_trans with (1 * inject_Z (2 ^ 1021)); [discriminate |].
      apply Qmult_le_compat_r; [assumption | discriminate]. }
    destruct (round64_close x Hxs) as [Hq1 Hq2].
    set (q := round64 x) in *.
    assert (Hqs : inject_Z (2 ^ 53) <= q * 100 * scale).
    { assert (Hq53 : 1 <= q * (9007199254740992 # 1) * 100) by lra.
      assert (Es : q * 100 * scale
                   == q * (9007199254740992 # 1) * 100 * inject_Z (2 ^ 1021)).
      { unfold scale.
        change (inject_Z (2 ^ 1074))
          with ((9007199254740992 # 1) * inject_Z (2 ^ 1021)). ring. }
      rewrite Es.
      apply Qle_trans with (1 * inject_Z (2 ^ 1021)); [discriminate |].
      apply Qmult_le_compat_r; [assumption | discriminate]. }
    destruct (round64_close (q * 100) Hqs) as [Hp1 Hp2].
    fold p in Hp1, Hp2.
    lra.
Qed.


(** X16.  For non-negative integer counters that are not both zero and
    sum to at most [2^53], the percentage shown for A is the true share
    [100 * votesA / (votesA + votesB)] up to one half and an error of the
    arithmetic below [10^-12]. *)
Theorem pctA_is_the_rounded_share (c : comparison) :
  nonneg_integer (votesA c) = true ->
  nonneg_integer (votesB c) = true ->
  0 < votesA c + votesB c ->
  votesA c + votesB c <= inject_Z (2 ^ 53) ->
  pctA c - (1 # 2) - (1 # 1000000000000)
  <= 100 * votesA c / (votesA c + votesB c)
  /\ 100 * votesA c / (votesA c + votesB c)
     <= pctA c + (1 # 2) + (1 # 1000000000000).
Proof. apply pctA_near_share. Qed.

Lemma pctA_is_the_rounded_share_witness :
  pctA (sample_row 7 29 171) - (1 # 2) - (1 # 1000000000000)
  <= 100 * 29 / (29 + 171)
  /\ 100 * 29 / (29 + 171)
     <= pctA (sample_row 7 29 171) + (1 # 2) + (1 # 1000000000000).
Proof.
  apply (pctA_is_the_rounded_share (sample_row 7 29 171));
    vm_compute; (reflexivity || discriminate).
Defined.

(** ** The percentages and the share *)

(** C10, amended.  For a record whose counters are non-negative integers,
    the two percentages add up to 100 and [pctA] is an integer between 0
    and 100.  It is 50 when both counters are zero; and for counters that
    are not both zero and sum to at most [2^53] it is the share
    [100 * votesA / (votesA + votesB)] up to one half and an error of the
    binary64 arithmetic below [10^-12]. *)
Theorem percentages_add_up (c : comparison) :
  nonneg_integer (votesA c) = true ->
  nonneg_integer (votesB c) = true ->
  pctA c + pctB c == 100
  /\ 0 <= pctA c /\ pctA c <= 100
  /\ (exists n : Z, pctA c = inject_Z n)
  /\ (votesA c == 0 -> votesB c == 0 -> pctA c = 50)
  /\ (0 < votesA c + votesB c ->
      votesA c + votesB c <= inject_Z (2 ^ 53) ->
      pctA c - (1 # 2) - (1 # 1000000000000)
      <= 100 * votesA c / (votesA c + votesB c)
      /\ 100 * votesA c / (votesA c + votesB c)
         <= pctA c + (1 # 2) + (1 # 1000000000000)).
Proof.
  intros HA HB.
  destruct (pctA_integer c HA HB) as [n [Hn En]].
  split; [| split; [| split; [| split; [| split]]]].
  - rewrite (pctB_of_pctA c n Hn En), En.
    unfold Zminus. rewrite inject_Z_plus, inject_Z_opp.
    change (inject_Z 100) with 100. ring.
  - rewrite En. apply (inject_Z_le 0). lia.
  - rewrite En. apply (inject_Z_le n 100). lia.
  - now exists n.
  - intros EA EB. unfold pctA. now rewrite (total_zero c EA EB).
  - intros Hpos Hsafe. now apply pctA_near_share.
Qed.

Lemma percentages_add_up_witness :
  pctA (sample_row 7 23 17) + pctB (sample_row 7 23 17) == 100
  /\ 0 <= pctA (sample_row 7 23 17) /\ pctA (sample_row 7 23 17) <= 100
  /\ pctA (sample_row 7 0 0) = 50
  /\ pctA (sample_row 7 23 17) - (1 # 2) - (1 # 1000000000000)
     <= 100 * 23 / (23 + 17)
  /\ 100 * 23 / (23 + 17)
     <= pctA (sample_row 7 23 17) + (1 # 2) + (1 # 1000000000000).
Proof.
  destruct (percentages_add_up (sample_row 7 23 17))
    as (Hsum & H0 & H100 & _ & _ & Hnear); try (vm_compute; reflexivity).
  destruct (percentages_add_up (sample_row 7 0 0))
    as (_ & _ & _ & _ & Hzero & _); try (vm_compute; reflexivity).
  split; [exact Hsum |]. split; [exact H0 |]. split; [exact H100 |].
  split; [apply Hzero; reflexivity |].
  apply Hnear; vm_compute; (reflexivity || discriminate).
Defined.

(** C10 as stated fails: 23 votes against 17 are shown as 57 percent,
    while the share, 57.5, rounds to 58; the quotient [23 / 40] is a
    double just below 0.575. *)
Lemma pctA_differs_from_the_rounded_share :
  nonneg_integer (votesA (sample_row 7 23 17)) = true
  /\ nonneg_integer (votesB (sample_row 7 23 17)) = true
  /\ 0 < votesA (sample_row 7 23 17) + votesB (sample_row 7 23 17)
  /\ pctA (sample_row 7 23 17) == 57
  /\ Math_round (votesA (sample_row 7 23 17)
                 / (votesA (sample_row 7 23 17) + votesB (sample_row 7 23 17))
                 * 100) == 58.
Proof.
  repeat split; vm_compute; reflexivity.
Qed.

(** ** The names that are stored *)

Section Trimming.

Lemma trim_start_spec (s : text) :
  starts_clean (trim_start s) = true
  /\ exists pre, blank pre = true /\ s = pre ++ trim_start s.
Proof.
  induction s as [| c s [IH1 [pre [Hpre E]]]]; cbn [trim_start].
  - split; [reflexivity | now exists []].
  - destruct (is_white_space c) eqn:W.
    + split; [exact IH1 |]. exists (c :: pre). cbn [blank].
      rewrite W, Hpre. split; [reflexivity |].
      cbn [app]. now rewrite E at 1.
    + split; [cbn [starts_clean]; now rewrite W | now exists []].
Qed.

Lemma last_char_cons (c d : N) (t : text) :
  last_char (c :: d :: t) = last_char (d :: t).
Proof. cbn. now destruct (last_char t). Qed.

Lemma trim_end_spec (s : text) :
  ends_clean (trim_end s) = true
  /\ (starts_clean s = true -> starts_clean (trim_end s) = true)
  /\ exists post, blank post = true /\ s = trim_end s ++ post.
Proof.
  induction s as [| c s (IH1 & _ & post & Hpost & E)].
  - split; [reflexivity |]. split; [reflexivity |]. now exists [].
  - cbn [trim_end]. destruct (trim_end s) as [| d t] eqn:T.
    + cbn [app] in E. destruct (is_white_space c) eqn:W.
      * split; [reflexivity |].
        split; [cbn [starts_clean]; now rewrite W |].
        exists (c :: s). cbn [blank app]. rewrite W, E, Hpost. now split.
      * split; [unfold ends_clean; cbn [last_char]; now rewrite W |].
        split; [intros _; cbn [starts_clean]; now rewrite W |].
        exists post. split; [assumption |]. cbn [app]. now rewrite E at 1.
    + split; [unfold ends_clean in *; now rewrite last_char_cons |].
      split; [intros H; exact H |].
      exists post. split; [assumption |].
      change (c :: s = c :: ((d :: t) ++ post)).
      now rewrite E at 1.
Qed.

(** [trim] drops the white space around a string and nothing else. *)
Lemma trim_stripped (s : text) : stripped s (trim s).
Proof.
  unfold stripped, trim.
  destruct (trim_start_spec s) as [Hs [pre [Hpre Es]]].
  destruct (trim_end_spec (trim_start s)) as [He [Hst [post [Hpost Ee]]]].
  split; [exact (Hst Hs) |]. split; [exact He |].
  exists pre, post. split; [assumption |]. split; [assumption |].
  rewrite <- Ee. exact Es.
Qed.

Lemma blank_append (s1 s2 : text) :
  blank (s1 ++ s2) = blank s1 && blank s2.
Proof.
  induction s1 as [| c s1 IH]; cbn [blank app]; [reflexivity |].
  now rewrite IH, andb_assoc.
Qed.

Lemma blank_clean_empty (s : text) :
  blank s = true -> starts_clean s = true -> s = [].
Proof.
  destruct s as [| c s]; [reflexivity |]. cbn [blank starts_clean].
  intros H1 H2. apply andb_true_iff in H1 as [W _]. now rewrite W in H2.
Qed.

Lemma trim_empty_iff (s : text) : trim s = [] <-> blank s = true.
Proof.
  destruct (trim_stripped s) as [Hs [_ [pre [post [Hpre [Hpost E]]]]]].
  split.
  - intros T. rewrite T in E. rewrite E, !blank_append, Hpre, Hpost.
    reflexivity.
  - intros B. apply blank_clean_empty; [| exact Hs].
    rewrite E, !blank_append in B.
    apply andb_true_iff in B as [_ B]. now apply andb_true_iff in B as [B _].
Qed.

End Trimming.

(** X17.  The record that [addComparison] creates holds the four texts of
    the form without the white space around them, and otherwise as they
    were typed. *)
Theorem addComparison_stores_stripped_texts
        (e : bool) (env : ambient) (w : world) :
  exists row,
    collection_after (addComparison e env) w = row :: comparisons (ui w)
    /\ stripped (Form.a (form (ui w))) (a row)
    /\ stripped (Form.b (form (ui w))) (b row)
    /\ stripped (Form.aImg (form (ui w))) (aImg row)
    /\ stripped (Form.bImg (form (ui w))) (bImg row).
Proof.
  exists (new_row (form (ui w)) env). rewrite collection_after_add.
  split; [reflexivity |].
  split; [apply trim_stripped |]. split; [apply trim_stripped |].
  split; apply trim_stripped.
Qed.

(** X18.  The record that [addComparison] creates has an empty [a]
    exactly when the left name in the form is empty or all white space,
    and likewise for [b]. *)
Theorem addComparison_empty_name_iff_blank
        (e : bool) (env : ambient) (w : world) :
  exists row,
    collection_after (addComparison e env) w = row :: comparisons (ui w)
    /\ (a row = [] <-> blank (Form.a (form (ui w))) = true)
    /\ (b row = [] <-> blank (Form.b (form (ui w))) = true).
Proof.
  exists (new_row (form (ui w)) env). rewrite collection_after_add.
  split; [reflexivity |]. split; apply trim_empty_iff.
Qed.

Lemma addComparison_empty_name_iff_blank_witness :
  exists row,
    collection_after (addComparison true first_draw)
                     (exec (emit (SetForm wide_blank_form)) initial_world)
    = [row]
    /\ a row = [] /\ b row <> [].
Proof.
  destruct (addComparison_empty_name_iff_blank true first_draw
              (exec (emit (SetForm wide_blank_form)) initial_world))
    as (row & E & Ha & Hb).
  exists row. split; [exact E |]. split.
  - apply Ha. reflexivity.
  - intros F. apply Hb in F. discriminate F.
Defined.

(** ** The dialog *)

(** X19.  Cancelling closes the dialog and keeps what was typed, so that
    opening it again shows the draft; adding closes the dialog and empties
    the form.  Neither the typing nor the cancelling sends anything to the
    store or touches the collection. *)
Theorem dialog_keeps_or_clears_the_draft
        (va vaImg vb vbImg : text) (e : bool) (env : ambient) (w : world) :
  ui (exec (open_dialog ;; type_a va ;; type_aImg vaImg ;; type_b vb ;;
            type_bImg vbImg) w)
  = mkState (comparisons (ui w)) (loading (ui w)) (saving (ui w)) true
            (Form.mk va vb vaImg vbImg) (filter (ui w))
  /\ ui (exec (open_dialog ;; type_a va ;; type_aImg vaImg ;; type_b vb ;;
               type_bImg vbImg ;; cancel_dialog) w)
     = mkState (comparisons (ui w)) (loading (ui w)) (saving (ui w)) false
               (Form.mk va vb vaImg vbImg) (filter (ui w))
  /\ ui (exec (open_dialog ;; type_a va ;; type_aImg vaImg ;; type_b vb ;;
               type_bImg vbImg ;; cancel_dialog ;; open_dialog) w)
     = mkState (comparisons (ui w)) (loading (ui w)) (saving (ui w)) true
               (Form.mk va vb vaImg vbImg) (filter (ui w))
  /\ log (exec (open_dialog ;; type_a va ;; type_aImg vaImg ;; type_b vb ;;
                type_bImg vbImg ;; cancel_dialog ;; open_dialog) w)
     = log w
       ++ [SetShowAdd true;
           SetForm (Form.mk va (Form.b (form (ui w)))
                            (Form.aImg (form (ui w)))
                            (Form.bImg (form (ui w))));
           SetForm (Form.mk va (Form.b (form (ui w))) vaImg
                            (Form.bImg (form (ui w))));
           SetForm (Form.mk va vb vaImg (Form.bImg (form (ui w))));
           SetForm (Form.mk va vb vaImg vbImg);
           SetShowAdd false; SetShowAdd true]
  /\ form (ui (exec (addComparison e env) w)) = Form.empty
  /\ showAdd (ui (exec (addComparison e env) w)) = false.
Proof.
  split; [reflexivity |]. split; [reflexivity |]. split; [reflexivity |].
  split.
  - cbn. now rewrite <- !app_assoc.
  - now destruct e.
Qed.

(** X20.  A vote never lowers a counter: whatever the side and the size
    of the counters, each record keeps or raises its [votesA] and its
    [votesB]. *)
Theorem vote_never_lowers_a_counter
        (i : number) (side : string) (w : world) (k : nat) (c : comparison) :
  nth_error (comparisons (ui w)) k = Some c ->
  0 <= votesA c -> is_double (votesA c) = true ->
  0 <= votesB c -> is_double (votesB c) = true ->
  exists c',
    nth_error (collection_after (vote i side) w) k = Some c'
    /\ votesA c <= votesA c' /\ votesB c <= votesB c'.
Proof.
  intros Hk HA HAd HB HBd. exists (vote_row i side c).
  rewrite collection_after_vote, nth_error_map, Hk.
  split; [reflexivity |].
  destruct (is_double_range _ HA HAd) as [EA _].
  destruct (is_double_range _ HB HBd) as [EB _].
  assert (LA : votesA c <= num_plus (votesA c) 1).
  { unfold num_plus. rewrite <- EA at 1. apply round64_mono; lra. }
  assert (LB : votesB c <= num_plus (votesB c) 1).
  { unfold num_plus. rewrite <- EB at 1. apply round64_mono; lra. }
  unfold vote_row. destruct (strict_eq _ _); cbn; [| lra].
  destruct (String.eqb side "A"), (String.eqb side "B"); lra.
Qed.

Lemma vote_never_lowers_a_counter_witness :
  exists c',
    nth_error (collection_after (vote 1 "A") (world_of [saturated_row])) 0
    = Some c'
    /\ votesA saturated_row <= votesA c'
    /\ votesB saturated_row <= votesB c'.
Proof.
  apply (vote_never_lowers_a_counter 1 "A" (world_of [saturated_row])
           0%nat saturated_row);
    vm_compute; (reflexivity || discriminate).
Defined.

(** ** Newest first *)

Section Order.

Lemma newest_first_map (f : comparison -> comparison) (l : list comparison) :
  (forall c, id (f c) = id c) -> newest_first l -> newest_first (map f l).
Proof.
  intros Hf. unfold newest_first.
  induction l as [| c l IH]; intros H; cbn; [constructor |].
  apply StronglySorted_inv in H as [Hl Hc].
  constructor; [now apply IH |].
  rewrite Forall_map. rewrite Forall_forall in *.
  intros d Hd. rewrite !Hf. now apply Hc.
Qed.

Lemma newest_first_filter (p : comparison -> bool) (l : list comparison) :
  newest_first l -> newest_first (List.filter p l).
Proof.
  unfold newest_first.
  induction l as [| c l IH]; intros H; cbn; [constructor |].
  apply StronglySorted_inv in H as [Hl Hc].
  destruct (p c); [| now apply IH].
  constructor; [now apply IH |].
  rewrite Forall_forall in *. intros d Hd.
  apply filter_In in Hd as [Hd _]. now apply Hc.
Qed.

Lemma newest_first_unique (l : list comparison) :
  newest_first l -> unique_ids l = true.
Proof.
  unfold newest_first.
  induction l as [| c l IH]; intros H; [reflexivity |].
  apply StronglySorted_inv in H as [Hl Hc].
  cbn. rewrite (IH Hl), andb_true_r.
  apply forallb_forall. intros d Hd.
  rewrite Forall_forall in Hc. specialize (Hc d Hd).
  apply strict_neq_iff. intros F. rewrite F in Hc.
  apply (Qlt_irrefl _ Hc).
Qed.

Lemma perform_keeps_newest_first (x : user_action) (w : world) :
  newest_first (comparisons (ui w)) ->
  clock_ahead [x] w = true ->
  newest_first (collection_after (perform x) w).
Proof.
  intros Hs Hc. rewrite collection_after_perform.
  destruct x as [f env | i side | i [|] | i [|]]; try assumption.
  - cbn in Hc. rewrite andb_true_r in Hc.
    apply andb_true_iff in Hc as [Hc Hold].
    apply andb_true_iff in Hc as [Hc Hrnd].
    apply andb_true_iff in Hc as [Hlo Hhi].
    apply Z.leb_le in Hlo, Hhi. apply Qle_bool_iff in Hrnd.
    pose proof (new_id_after_clock env (conj Hlo Hhi) Hrnd) as Hnew.
    constructor; [exact Hs |].
    apply Forall_forall. intros d Hd.
    rewrite forallb_forall in Hold. specialize (Hold d Hd).
    apply negb_true_iff, not_true_iff_false in Hold.
    rewrite Qle_bool_iff in Hold. apply Qnot_le_lt in Hold.
    cbn. lra.
  - apply newest_first_map; [apply id_vote_row | assumption].
  - apply newest_first_map; [apply id_reset_row | assumption].
  - now apply newest_first_filter.
Qed.

Lemma run_keeps_newest_first (xs : list user_action) :
  forall w,
    newest_first (comparisons (ui w)) ->
    clock_ahead xs w = true ->
    newest_first (collection_after (run xs) w).
Proof.
  induction xs as [| x xs IH]; intros w Hs Hc; [exact Hs |].
  cbn [clock_ahead] in Hc. apply andb_true_iff in Hc as [Hx Hc].
  unfold collection_after. cbn [run]. rewrite exec_then.
  apply IH; [| assumption].
  apply perform_keeps_newest_first; [assumption |].
  cbn [clock_ahead]. now rewrite Hx.
Qed.

End Order.

(** X21.  Start from the empty collection.  When every add of a run reads
    a clock, between 0 and [2^53], that is past every id held at that
    moment, and a random number that is not negative, the collection is
    at the end newest first: the ids go down strictly from the first
    record on, and so no two records share an id. *)
Theorem run_is_newest_first (xs : list user_action) :
  clock_ahead xs initial_world = true ->
  newest_first (collection_after (run xs) initial_world)
  /\ unique_ids (collection_after (run xs) initial_world) = true.
Proof.
  intros Hc.
  assert (H : newest_first (collection_after (run xs) initial_world)).
  { apply run_keeps_newest_first; [constructor | exact Hc]. }
  split; [exact H | now apply newest_first_unique].
Qed.

Lemma run_is_newest_first_witness :
  newest_first
    (collection_after
       (run [Add pie_form first_draw; Vote (new_id first_draw) "A";
             Add blank_form later_draw; Delete 5 true])
       initial_world)
  /\ unique_ids
       (collection_after
          (run [Add pie_form first_draw; Vote (new_id first_draw) "A";
                Add blank_form later_draw; Delete 5 true])
          initial_world) = true.
Proof.
  apply (run_is_newest_first
           [Add pie_form first_draw; Vote (new_id first_draw) "A";
            Add blank_form later_draw; Delete 5 true]).
  vm_compute. reflexivity.
Defined.
